(** * IntlChunkLoader: the browser runtime of react-intl-extract-webpack-plugin

    A shallow embedding of
    [packages/react-intl-extract-webpack-plugin/browser/index.tsx].

    - Plain JavaScript objects used as dictionaries ([Manifest], [Messages],
      [LocaleMessages]) are finite maps over their own string-keyed
      properties; keys inherited from [Object.prototype] are outside the
      model.  The [Set] of pending chunk ids keeps its insertion order,
      because [loadPending] iterates it; the per-locale [Set]s of loaded
      chunk ids are only asked for membership and are finite sets.
    - Numeric chunk ids are integers.
    - The asynchronous part is an event loop over explicit state: the loader,
      the requests it opened, and the promise chains of its [loadPending]
      calls.  Method calls, the [load] and [error] events of requests, and
      the [then] callbacks are events that may interleave in any order.
    - [JSON.parse] is a parameter of the development. *)

From stdpp Require Import gmap strings list fin_maps pretty.

Local Open Scope string_scope.
Local Open Scope list_scope.
Set Warnings "-clear-no-such-hyp".

(** ** Data model *)

(** [type ChunkId = string | number].  Chunk ids are small integers or names;
    a [Set] keeps the number [1] and the string ["1"] apart. *)
Inductive ChunkId :=
  | IdStr (s : string)
  | IdNum (n : Z).

Global Instance ChunkId_eq_dec : EqDecision ChunkId.
Proof. solve_decision. Defined.

Global Instance ChunkId_countable : Countable ChunkId.
Proof.
  refine (inj_countable'
            (λ c, match c with IdStr s => inl s | IdNum n => inr n end)
            (λ x, match x with inl s => IdStr s | inr n => IdNum n end) _).
  by intros [].
Defined.

(** Property access [obj[chunkId]] converts the key to a string. *)
Definition property_key (chunkId : ChunkId) : string :=
  match chunkId with
  | IdStr s => s
  | IdNum n => pretty n
  end.

Abbreviation LocaleMessages := (gmap string string).
Abbreviation Messages := (gmap string (gmap string string)).
Abbreviation Manifest := (gmap string (gmap string string)).

(** [Cached]: chunk group name to [Messages].  The constructor walks it with
    [Object.keys], and later groups overwrite earlier ones, so the
    enumeration order is kept. *)
Abbreviation Cached := (list (string * gmap string (gmap string string))).

Record IntlChunkLoader := mkLoader {
  chunkIdsToLoad : list ChunkId;
  manifest : Manifest;
  cache : Messages;
  locale : option string;
  loadedChunksPerLocale : gmap string (gset ChunkId);
}.

(** JavaScript truthiness of an optional string: [undefined] and [""] are
    falsy. *)
Definition truthy (v : option string) : bool :=
  match v with
  | Some s => negb (String.eqb s "")
  | None => false
  end.

(** [Set.prototype.add] on an insertion-ordered set. *)
Definition set_add (c : ChunkId) (s : list ChunkId) : list ChunkId :=
  if decide (c ∈ s) then s else s ++ [c].

(** [new Set(chunkIds)]. *)
Definition set_of_array (chunkIds : list ChunkId) : list ChunkId :=
  foldl (λ s c, set_add c s) [] chunkIds.

(** [Object.assign(target, source)]: own properties of [source] overwrite
    those of [target]. *)
Definition object_assign {V} (target source : gmap string V) : gmap string V :=
  source ∪ target.

(** ** Synchronous methods *)

(** The body of the [forEach] callback of [updateCache]. *)
Definition updateCache_locale (locale : string) (msgs : LocaleMessages)
    (cache : Messages) : Messages :=
  let cache' := match cache !! locale with
                | Some _ => cache
                | None => <[locale := ∅]> cache
                end in
  <[locale := object_assign (default ∅ (cache' !! locale)) msgs]> cache'.

Definition updateCache_cache (messages : Messages) (cache : Messages) : Messages :=
  map_fold updateCache_locale cache messages.

Definition updateCache (messages : Messages) (l : IntlChunkLoader) : IntlChunkLoader :=
  mkLoader (chunkIdsToLoad l) (manifest l) (updateCache_cache messages (cache l))
           (locale l) (loadedChunksPerLocale l).

Definition setChunkIdAsLoaded (chunkId : ChunkId) (locale_ : string)
    (l : IntlChunkLoader) : IntlChunkLoader :=
  let loaded :=
    match loadedChunksPerLocale l !! locale_ with
    | Some set => <[locale_ := set ∪ {[chunkId]}]> (loadedChunksPerLocale l)
    | None => <[locale_ := {[chunkId]}]> (loadedChunksPerLocale l)
    end in
  mkLoader (chunkIdsToLoad l) (manifest l) (cache l) (locale l) loaded.

(** [hot]: a shallow [Object.assign] on the manifest, then [updateCache]. *)
Definition hot (manifest_ : Manifest) (messages_ : Messages)
    (l : IntlChunkLoader) : IntlChunkLoader :=
  updateCache messages_
    (mkLoader (chunkIdsToLoad l) (object_assign (manifest l) manifest_)
              (cache l) (locale l) (loadedChunksPerLocale l)).

(** The [messages] getter. *)
Definition messages (l : IntlChunkLoader) : option LocaleMessages :=
  if truthy (locale l) then cache l !! default "" (locale l) else None.

(** The inner [forEach] of the constructor: every locale of a chunk group is
    recorded as loaded for that group. *)
Definition mark_locales (chunkId : ChunkId) (cachedMessages : Messages)
    (l : IntlChunkLoader) : IntlChunkLoader :=
  map_fold (λ locale_ _ l', setChunkIdAsLoaded chunkId locale_ l')
           l cachedMessages.

(** One turn of the outer [forEach] of the constructor, for the chunk group
    [chunkId] of [cached]. *)
Definition hydrate (l : IntlChunkLoader)
    (entry : string * gmap string (gmap string string)) : IntlChunkLoader :=
  let '(chunkId, cachedMessages) := entry in
  mark_locales (IdStr chunkId) cachedMessages (updateCache cachedMessages l).

(** [new IntlChunkLoader(manifest, chunkIds, cached)]. *)
Definition construct (manifest_ : Manifest) (chunkIds : list ChunkId)
    (cached : Cached) : IntlChunkLoader :=
  foldl hydrate (mkLoader (set_of_array chunkIds) manifest_ ∅ None ∅) cached.

(** [src] of [load]: [this.manifest[chunkId] && this.manifest[chunkId][locale]]. *)
Definition manifest_src (chunkId : ChunkId) (locale_ : string)
    (l : IntlChunkLoader) : option string :=
  manifest l !! property_key chunkId ≫= (λ perLocale, perLocale !! locale_).

(** [loadedChunks && loadedChunks.has(chunkId)]. *)
Definition is_loaded (chunkId : ChunkId) (locale_ : string)
    (l : IntlChunkLoader) : bool :=
  match loadedChunksPerLocale l !! locale_ with
  | Some set => bool_decide (chunkId ∈ set)
  | None => false
  end.

(** The guard of [load] under which it returns [Promise.resolve()]. *)
Definition load_skips (chunkId : ChunkId) (locale_ : string)
    (l : IntlChunkLoader) : bool :=
  negb (truthy (manifest_src chunkId locale_ l)) || is_loaded chunkId locale_ l.

(** ** Requests, promises and the event loop *)

(** What a promise of the loader can be rejected with: an [Error] thrown by
    [initialize], the [SyntaxError] of [JSON.parse], or the [error] event of
    a request handed to [reject]. *)
Inductive JsError :=
  | Error_ (message : string)
  | SyntaxError
  | ErrorEvent (request : nat).

Global Instance JsError_eq_dec : EqDecision JsError.
Proof. solve_decision. Defined.

Inductive ReadyState :=
  | Sent
  | Done (responseText : string)
  | Failed.

(** An [XMLHttpRequest] opened by [load], with the chunk and locale captured
    by its listeners. *)
Record Request := mkRequest {
  req_chunkId : ChunkId;
  req_locale : string;
  req_src : string;
  req_state : ReadyState;
}.

(** The promise [load] returns: [Promise.resolve()], or the promise settled
    by the listeners of request [r]. *)
Inductive LoadPromise :=
  | Resolved
  | OfRequest (r : nat).

Inductive PromiseState :=
  | PromisePending
  | PromiseFulfilled
  | PromiseRejected (e : JsError).

Inductive ChainStatus :=
  | Pending
  | Settled
  | Fulfilled
  | Rejected (e : JsError).

(** The promise chain of one [loadPending] call: the locale, the [size]
    snapshot and the array of the pass in flight, the requests [Promise.all]
    still waits for, whether [setLocale] appended its callback, and where
    the chain stands.  [Settled] is the promise of [loadPending] fulfilled;
    [Fulfilled] is the promise of [setLocale] fulfilled. *)
Record Chain := mkChain {
  ch_locale : string;
  ch_size : nat;
  ch_ids : list ChunkId;
  ch_waiting : list nat;
  ch_setLocale : bool;
  ch_status : ChainStatus;
}.

Record System := mkSystem {
  loader : IntlChunkLoader;
  requests : list Request;
  chains : list Chain;
}.

Definition with_loader (l : IntlChunkLoader) (s : System) : System :=
  mkSystem l (requests s) (chains s).

Definition with_status (st : ChainStatus) (ch : Chain) : Chain :=
  mkChain (ch_locale ch) (ch_size ch) (ch_ids ch) (ch_waiting ch)
          (ch_setLocale ch) st.

(** [load(chunkId, locale)]. *)
Definition load (chunkId : ChunkId) (locale_ : string) (s : System)
    : LoadPromise * System :=
  if load_skips chunkId locale_ (loader s) then (Resolved, s)
  else
    let src := default "" (manifest_src chunkId locale_ (loader s)) in
    (OfRequest (length (requests s)),
     mkSystem (loader s)
              (requests s ++ [mkRequest chunkId locale_ src Sent])
              (chains s)).

(** [Array.from(this.chunkIdsToLoad).map(chunkId => this.load(chunkId, locale))]. *)
Fixpoint load_all (ids : list ChunkId) (locale_ : string) (s : System)
    : list LoadPromise * System :=
  match ids with
  | [] => ([], s)
  | chunkId :: ids' =>
      let '(p, s1) := load chunkId locale_ s in
      let '(ps, s2) := load_all ids' locale_ s1 in
      (p :: ps, s2)
  end.

(** The requests [Promise.all] has to wait for. *)
Definition awaited (ps : list LoadPromise) : list nat :=
  omap (λ p, match p with OfRequest r => Some r | Resolved => None end) ps.

(** The requests a fan-out over [ids] opens: one for each chunk that [load]
    does not skip, in the order of [ids]. *)
Definition open_requests (ids : list ChunkId) (locale_ : string)
    (l : IntlChunkLoader) : list Request :=
  (λ c, mkRequest c locale_ (default "" (manifest_src c locale_ l)) Sent)
    <$> filter (λ c, load_skips c locale_ l = false) ids.

(** One pass of [loadPending]: the snapshot, the fan-out, and the chain left
    waiting for [Promise.all]. *)
Definition fan_out (locale_ : string) (viaSetLocale : bool) (s : System)
    : Chain * System :=
  let size := length (chunkIdsToLoad (loader s)) in
  let ids := chunkIdsToLoad (loader s) in
  let '(ps, s1) := load_all ids locale_ s in
  (mkChain locale_ size ids (awaited ps) viaSetLocale Pending, s1).

Definition spawn (locale_ : string) (viaSetLocale : bool) (s : System)
    : nat * System :=
  let '(ch, s1) := fan_out locale_ viaSetLocale s in
  (length (chains s1), mkSystem (loader s1) (requests s1) (chains s1 ++ [ch])).

(** [loadPending(locale)], up to the promise it returns (a chain index). *)
Definition loadPending (locale_ : string) (s : System) : nat * System :=
  spawn locale_ false s.

(** [setLocale(locale)]: [loadPending(locale).then(...)]. *)
Definition setLocale (locale_ : string) (s : System) : nat * System :=
  spawn locale_ true s.

(** [push(chunkId)]. *)
Definition push (chunkId : ChunkId) (s : System) : LoadPromise * System :=
  let l := loader s in
  let s1 := with_loader
              (mkLoader (set_add chunkId (chunkIdsToLoad l)) (manifest l)
                        (cache l) (locale l) (loadedChunksPerLocale l)) s in
  if truthy (locale l) then load chunkId (default "" (locale l)) s1
  else (Resolved, s1).

(** The callback of [Promise.all(...).then] in [loadPending], run once every
    load of the pass has resolved. *)
Definition then_loadPending (t : nat) (s : System) : System :=
  match chains s !! t with
  | Some ch =>
      match ch_status ch, ch_waiting ch with
      | Pending, [] =>
          if decide (ch_size ch < length (chunkIdsToLoad (loader s))) then
            let '(ch', s1) := fan_out (ch_locale ch) (ch_setLocale ch) s in
            mkSystem (loader s1) (requests s1) (<[t := ch']> (chains s1))
          else
            mkSystem (loader s) (requests s)
                     (<[t := with_status Settled ch]> (chains s))
      | _, _ => s
      end
  | None => s
  end.

(** The callback [() => { this.locale = locale; }] of [setLocale]. *)
Definition then_setLocale (t : nat) (s : System) : System :=
  match chains s !! t with
  | Some ch =>
      match ch_status ch, ch_setLocale ch with
      | Settled, true =>
          let l := loader s in
          mkSystem (mkLoader (chunkIdsToLoad l) (manifest l) (cache l)
                             (Some (ch_locale ch)) (loadedChunksPerLocale l))
                   (requests s)
                   (<[t := with_status Fulfilled ch]> (chains s))
      | _, _ => s
      end
  | None => s
  end.

(** A load promise was resolved: [Promise.all] stops waiting for it. *)
Definition resolve_in (r : nat) (ch : Chain) : Chain :=
  match ch_status ch with
  | Pending =>
      mkChain (ch_locale ch) (ch_size ch) (ch_ids ch)
              (filter (λ x, x ≠ r) (ch_waiting ch)) (ch_setLocale ch) Pending
  | _ => ch
  end.

(** A load promise was rejected: every [Promise.all] waiting for it rejects
    with the same reason, and so does the rest of the chain. *)
Definition reject_in (r : nat) (e : JsError) (ch : Chain) : Chain :=
  match ch_status ch with
  | Pending =>
      if decide (r ∈ ch_waiting ch) then with_status (Rejected e) ch else ch
  | _ => ch
  end.

Definition finish (r : nat) (st : ReadyState) (reqs : list Request)
    : list Request :=
  alter (λ req, mkRequest (req_chunkId req) (req_locale req) (req_src req) st)
        r reqs.

(** ** The module-level [initialize] *)

(** [__webpack_require__.intlChunkLoader]: nothing, the array of chunk ids
    requested so far, or the loader once it exists. *)
Inductive LoaderSlot :=
  | SlotUndefined
  | SlotChunkIds (chunkIds : list ChunkId)
  | SlotLoader (l : IntlChunkLoader).

Record WebpackRequire := mkWebpackRequire {
  intlManifest : option Manifest;
  intlChunkLoader : LoaderSlot;
}.

Definition manifest_not_found : string :=
  "Manifest generated by react-intl-extract-webpack-plugin not found. Make sure to use this plugin in your webpack config.".

Definition called_twice : string :=
  "Initialize function for intl chunk loader should be called only once.".

(** [initialize(cached)]: the thrown [Error], or the loader together with the
    updated extension point. *)
Definition initialize (cached : option Cached) (w : WebpackRequire)
    : JsError + IntlChunkLoader * WebpackRequire :=
  match intlManifest w with
  | None => inl (Error_ manifest_not_found)
  | Some manifest_ =>
      match intlChunkLoader w with
      | SlotLoader _ => inl (Error_ called_twice)
      | slot =>
          let chunkIds := match slot with
                          | SlotChunkIds chunkIds => chunkIds
                          | _ => []
                          end in
          let l := construct manifest_ chunkIds (default [] cached) in
          inr (l, mkWebpackRequire (Some manifest_) (SlotLoader l))
      end
  end.

(** ** The init script of the forked react-scripts

    [scripts/init.js] runs the [init] of [react-scripts], then rewrites every
    entry of [scripts] in the [package.json] of the new application and writes
    the file back.  The rewriting is modelled; the file system is not. *)

(** [s.startsWith(pattern)], with what follows the pattern. *)
Fixpoint strip_prefix (pattern s : string) : option string :=
  match pattern, s with
  | EmptyString, _ => Some s
  | String a pattern', String b s' =>
      if Ascii.eqb a b then strip_prefix pattern' s' else None
  | String _ _, EmptyString => None
  end.

(** [s.replace(pattern, replacement)] for a string [pattern] and a
    [replacement] without [$]: the leftmost occurrence is replaced, the rest
    is copied.  Strings are sequences of bytes; for a pattern of ASCII
    characters the leftmost occurrence is the same as over UTF-16 units. *)
Fixpoint replace_first (pattern replacement s : string) : string :=
  match strip_prefix pattern s with
  | Some rest => replacement +:+ rest
  | None =>
      match s with
      | EmptyString => EmptyString
      | String b s' => String b (replace_first pattern replacement s')
      end
  end.

Definition rewrite_script (script : string) : string :=
  replace_first "react-scripts" "@react-app/react-scripts" script.

(** [Object.keys(package.scripts).forEach(name => { package.scripts[name] =
    package.scripts[name].replace(...) })]. *)
Definition rewrite_scripts (scripts : gmap string string) : gmap string string :=
  map_fold (λ name _ scripts',
              match scripts' !! name with
              | Some script => <[name := rewrite_script script]> scripts'
              | None => scripts'
              end)
           scripts scripts.

(** ** Fixtures of the examples *)

Definition hot_manifest_before : Manifest :=
  {[ "a" := {[ "en" := "a.en.json"; "fr" := "a.fr.json" ]} ]}.

Definition hot_manifest_patch : Manifest :=
  {[ "a" := {[ "en" := "a.en.v2.json" ]} ]}.

Definition hydration_cached : Cached :=
  [("main", {[ "en" := {[ "greeting" := "hi" ]} ]})].

(** A stand-in for [JSON.parse] on the bodies the examples use: the body
    [{}] is the empty object, any other body is taken as malformed. *)
Definition parse_fixture (body : string) : option LocaleMessages :=
  if String.eqb body "{}" then Some ∅ else None.

(** The same, knowing also the bodies of the two resources of
    [fixture_manifest] below, which hold one message each. *)
Definition parse_fixture_bodies (body : string) : option LocaleMessages :=
  if String.eqb body "a.de" then Some {[ "a.title" := "Titel" ]}
  else if String.eqb body "b.de" then Some {[ "b.title" := "Untertitel" ]}
  else parse_fixture body.

Definition fixture_manifest : Manifest :=
  {[ "a" := {[ "de" := "a.de.json" ]}; "b" := {[ "de" := "b.de.json" ]} ]}.

(** A loader for chunk [a] whose [setLocale("de")] has one request in
    flight. *)
Definition fixture_in_flight : System :=
  (setLocale "de"
     (mkSystem (construct fixture_manifest [IdStr "a"] []) [] [])).2.

Definition fixture_request : Request :=
  mkRequest (IdStr "a") "de" "a.de.json" Sent.

Definition fixture_chain : Chain :=
  mkChain "de" 1 [IdStr "a"] [0] true Pending.

Section Loader.

(** [JSON.parse] of a response body, as the own properties of the value it
    returns ([Object.assign] copies nothing else); [None] when it throws. *)
Variable JSON_parse : string → option LocaleMessages.

(** The [load] listener of request [r], fired with [responseText]. *)
Definition on_load (r : nat) (responseText : string) (s : System) : System :=
  match requests s !! r with
  | Some req =>
      match req_state req with
      | Sent =>
          let reqs := finish r (Done responseText) (requests s) in
          match JSON_parse responseText with
          | Some parsed =>
              mkSystem
                (setChunkIdAsLoaded (req_chunkId req) (req_locale req)
                   (updateCache {[ req_locale req := parsed ]} (loader s)))
                reqs (resolve_in r <$> chains s)
          | None =>
              mkSystem (loader s) reqs (reject_in r SyntaxError <$> chains s)
          end
      | _ => s
      end
  | None => s
  end.

(** The [error] listener of request [r]. *)
Definition on_error (r : nat) (s : System) : System :=
  match requests s !! r with
  | Some req =>
      match req_state req with
      | Sent =>
          mkSystem (loader s) (finish r Failed (requests s))
                   (reject_in r (ErrorEvent r) <$> chains s)
      | _ => s
      end
  | None => s
  end.

(** The state of the promise [load] returned for request [r]: the listener
    calls [reject(e)] when [JSON.parse] throws, and [resolve()] otherwise. *)
Definition promise_of (r : nat) (s : System) : option PromiseState :=
  req ← requests s !! r;
  Some match req_state req with
       | Sent => PromisePending
       | Done responseText =>
           match JSON_parse responseText with
           | Some _ => PromiseFulfilled
           | None => PromiseRejected SyntaxError
           end
       | Failed => PromiseRejected (ErrorEvent r)
       end.

(** What can happen to a loader: a call of one of its methods, an event of
    one of its requests, or a promise reaction of one of its chains.  The
    [messages] getter changes nothing, and [setChunkIdAsLoaded] is the helper
    by which the constructor and the [load] listener record a pair; neither
    is an event. *)
Inductive Event :=
  | CallLoad (chunkId : ChunkId) (locale_ : string)
  | CallLoadPending (locale_ : string)
  | CallSetLocale (locale_ : string)
  | CallPush (chunkId : ChunkId)
  | CallHot (manifest_ : Manifest) (messages_ : Messages)
  | CallUpdateCache (messages_ : Messages)
  | RequestLoad (r : nat) (responseText : string)
  | RequestError (r : nat)
  | ThenLoadPending (t : nat)
  | ThenSetLocale (t : nat).

Definition step (s : System) (ev : Event) : System :=
  match ev with
  | CallLoad chunkId locale_ => snd (load chunkId locale_ s)
  | CallLoadPending locale_ => snd (loadPending locale_ s)
  | CallSetLocale locale_ => snd (setLocale locale_ s)
  | CallPush chunkId => snd (push chunkId s)
  | CallHot manifest_ messages_ => with_loader (hot manifest_ messages_ (loader s)) s
  | CallUpdateCache messages_ => with_loader (updateCache messages_ (loader s)) s
  | RequestLoad r responseText => on_load r responseText s
  | RequestError r => on_error r s
  | ThenLoadPending t => then_loadPending t s
  | ThenSetLocale t => then_setLocale t s
  end.

Definition run (evs : list Event) (s : System) : System := foldl step s evs.

(** A freshly constructed loader: nothing requested, no promise yet. *)
Definition boot (manifest_ : Manifest) (chunkIds : list ChunkId)
    (cached : Cached) : System :=
  mkSystem (construct manifest_ chunkIds cached) [] [].

(** How the chain at index [t] moves in one step. *)
Inductive chain_step (s : System) (ev : Event) (t : nat) (ch : Chain)
    : Chain → Prop :=
  | chain_same : chain_step s ev t ch ch
  | chain_resolve r text :
      ev = RequestLoad r text →
      chain_step s ev t ch (resolve_in r ch)
  | chain_reject r e :
      (e = SyntaxError ∧ (∃ text, ev = RequestLoad r text ∧ JSON_parse text = None)
       ∨ e = ErrorEvent r ∧ ev = RequestError r) →
      chain_step s ev t ch (reject_in r e ch)
  | chain_again :
      ev = ThenLoadPending t → ch_status ch = Pending → ch_waiting ch = [] →
      ch_size ch < length (chunkIdsToLoad (loader s)) →
      loader (step s ev) = loader s →
      chain_step s ev t ch (fan_out (ch_locale ch) (ch_setLocale ch) s).1
  | chain_settle :
      ev = ThenLoadPending t → ch_status ch = Pending → ch_waiting ch = [] →
      ¬ ch_size ch < length (chunkIdsToLoad (loader s)) →
      step s ev
        = mkSystem (loader s) (requests s)
                   (<[t := with_status Settled ch]> (chains s)) →
      chain_step s ev t ch (with_status Settled ch)
  | chain_fulfil :
      ev = ThenSetLocale t → ch_status ch = Settled → ch_setLocale ch = true →
      locale (loader (step s ev)) = Some (ch_locale ch) →
      chain_step s ev t ch (with_status Fulfilled ch).

(** What one event does to the loader and to the requests. *)
Inductive effect (s : System) (ev : Event) (s' : System) : Prop :=
  | effect_requests new :
      loader s' = loader s →
      requests s' = requests s ++ new →
      Forall (λ req, req_state req = Sent) new →
      effect s ev s'
  | effect_push c new :
      ev = CallPush c →
      loader s' =
        mkLoader (set_add c (chunkIdsToLoad (loader s))) (manifest (loader s))
          (cache (loader s)) (locale (loader s))
          (loadedChunksPerLocale (loader s)) →
      requests s' = requests s ++ new →
      Forall (λ req, req_state req = Sent) new →
      effect s ev s'
  | effect_merge messages_ manifest' :
      loader s' =
        updateCache messages_
          (mkLoader (chunkIdsToLoad (loader s)) manifest' (cache (loader s))
             (locale (loader s)) (loadedChunksPerLocale (loader s))) →
      requests s' = requests s →
      effect s ev s'
  | effect_parsed r text req parsed :
      ev = RequestLoad r text →
      requests s !! r = Some req → req_state req = Sent →
      JSON_parse text = Some parsed →
      loader s' =
        setChunkIdAsLoaded (req_chunkId req) (req_locale req)
          (updateCache {[ req_locale req := parsed ]} (loader s)) →
      requests s' = finish r (Done text) (requests s) →
      effect s ev s'
  | effect_failed r req st :
      requests s !! r = Some req → req_state req = Sent →
      (st = Failed ∨ ∃ text, st = Done text ∧ JSON_parse text = None) →
      loader s' = loader s →
      requests s' = finish r st (requests s) →
      effect s ev s'
  | effect_assign t ch :
      ev = ThenSetLocale t →
      chains s !! t = Some ch → ch_status ch = Settled →
      ch_setLocale ch = true →
      loader s' =
        mkLoader (chunkIdsToLoad (loader s)) (manifest (loader s))
          (cache (loader s)) (Some (ch_locale ch))
          (loadedChunksPerLocale (loader s)) →
      requests s' = requests s →
      effect s ev s'.

(** Case analysis on an [effect], with the names the proofs below use. *)
Ltac effect_cases Heff :=
  destruct Heff as
    [new Hl Hreqs Hnew
    |c0 new Hev Hl Hreqs Hnew
    |msgs0 manifest' Hl Hreqs
    |r text req parsed Hev Hr Hsent Hp Hl Hreqs
    |r req st Hr Hsent Hst Hl Hreqs
    |t ch Hev Ht Hst Hv Hl Hreqs].


(** The messages the constructor was handed for a chunk and locale. *)
Definition preseeded (cached : Cached) (c : ChunkId) (locale_ : string)
    (msgs : LocaleMessages) : Prop :=
  ∃ name group, (name, group) ∈ cached ∧ c = IdStr name
                ∧ group !! locale_ = Some msgs.

(** The messages a finished request brought for a chunk and locale. *)
Definition fetched (reqs : list Request) (c : ChunkId) (locale_ : string)
    (msgs : LocaleMessages) : Prop :=
  ∃ r req text, reqs !! r = Some req ∧ req_chunkId req = c
                ∧ req_locale req = locale_ ∧ req_state req = Done text
                ∧ JSON_parse text = Some msgs.

Definition payload_of (cached : Cached) (s : System) (c : ChunkId)
    (locale_ : string) (msgs : LocaleMessages) : Prop :=
  preseeded cached c locale_ msgs ∨ fetched (requests s) c locale_ msgs.

(** [msgs] was merged into the bucket of [locale_]: the bucket is what
    [Object.assign] made of an older bucket and [msgs], with later merges on
    top. *)
Definition merged_into (msgs : LocaleMessages) (cache_ : Messages)
    (locale_ : string) : Prop :=
  ∃ older later : LocaleMessages,
    cache_ !! locale_ = Some (later ∪ (msgs ∪ older)).

(** The invariant of the data model. *)
Definition loaded_merged (cached : Cached) (s : System) : Prop :=
  ∀ c locale_, is_loaded c locale_ (loader s) = true →
    (∃ msgs, payload_of cached s c locale_ msgs)
    ∧ ∀ msgs, payload_of cached s c locale_ msgs →
              merged_into msgs (cache (loader s)) locale_.

(** Its inductive form: every payload that arrived is in the cache, and a
    chunk is only recorded once a payload has arrived for it. *)
Definition payloads_merged (cached : Cached) (s : System) : Prop :=
  (∀ c locale_ msgs, payload_of cached s c locale_ msgs →
                     merged_into msgs (cache (loader s)) locale_)
  ∧ (∀ c locale_, is_loaded c locale_ (loader s) = true →
                  ∃ msgs, payload_of cached s c locale_ msgs).

Definition cache_grows (c1 c2 : Messages) : Prop :=
  ∀ locale_ b1, c1 !! locale_ = Some b1 →
    ∃ b2, c2 !! locale_ = Some b2 ∧ dom b1 ⊆ dom b2.

(** The locale is unset, or some chain of [setLocale] for it is fulfilled. *)
Definition locale_justified (s : System) : Prop :=
  match locale (loader s) with
  | None => True
  | Some locale_ =>
      ∃ t ch, chains s !! t = Some ch ∧ ch_status ch = Fulfilled
              ∧ ch_setLocale ch = true ∧ ch_locale ch = locale_
  end.

(** ** First properties of [updateCache] *)

Lemma updateCache_locale_lookup locale msgs cache k :
  updateCache_locale locale msgs cache !! k =
    if decide (locale = k) then Some (msgs ∪ default ∅ (cache !! locale))
    else cache !! k.
Proof.
  unfold updateCache_locale, object_assign.
  destruct (cache !! locale) as [b|] eqn:Hb; case_decide; subst;
    simplify_map_eq; try done.
Qed.

Lemma updateCache_cache_lookup messages cache k :
  updateCache_cache messages cache !! k =
    match messages !! k with
    | Some msgs => Some (msgs ∪ default ∅ (cache !! k))
    | None => cache !! k
    end.
Proof.
  unfold updateCache_cache.
  apply (map_fold_weak_ind (λ r m, r !! k =
    match m !! k with
    | Some msgs => Some (msgs ∪ default ∅ (cache !! k))
    | None => cache !! k
    end)).
  - by rewrite lookup_empty.
  - intros i x m r Hi IH. rewrite updateCache_locale_lookup.
    case_decide; subst.
    + by rewrite IH, Hi, lookup_insert_eq.
    + by rewrite lookup_insert_ne.
Qed.

Lemma updateCache_cache_idemp messages_ cache_ :
  updateCache_cache messages_ (updateCache_cache messages_ cache_)
  = updateCache_cache messages_ cache_.
Proof.
  apply map_eq; intros k. rewrite !updateCache_cache_lookup.
  destruct (messages_ !! k) as [msgs|]; [|done].
  simpl. by rewrite (assoc_L (∪)), (idemp_L (∪)).
Qed.

(** C6. [updateCache] (mergeIntoCache) is idempotent: merging the same
    payload a second time leaves the loader, and so its cache with every
    locale bucket and message id, exactly as the first merge left it. *)
Theorem updateCache_idempotent (messages_ : Messages) (l : IntlChunkLoader) :
  updateCache messages_ (updateCache messages_ l) = updateCache messages_ l.
Proof.
  unfold updateCache; simpl. by rewrite updateCache_cache_idemp.
Qed.

(** ** Hot updates *)

(** C8, as stated, fails: a patch that mentions chunk [a] replaces the whole
    locale map of [a], so the [fr] resource declared before the update is no
    longer declared after it. *)
Lemma hot_drops_manifest_entry :
  let l := construct hot_manifest_before [] [] in
  manifest_src (IdStr "a") "fr" l = Some "a.fr.json"
  ∧ manifest_src (IdStr "a") "fr" (hot hot_manifest_patch ∅ l) = None.
Proof. split; vm_compute; reflexivity. Qed.

(** C8, amended. [hot] extends the manifest chunk by chunk: a chunk id named
    by the patch gets the locale map of the patch, any other chunk id keeps
    its locale map, and no chunk id disappears; the messages are merged into
    the cache as [updateCache] does, and the pending set, the active locale
    and the loaded bookkeeping are untouched. *)
Theorem hot_extends_manifest_by_chunk (manifest_ : Manifest)
    (messages_ : Messages) (l : IntlChunkLoader) :
  (∀ chunk : string,
     manifest (hot manifest_ messages_ l) !! chunk =
       match manifest_ !! chunk with
       | Some perLocale => Some perLocale
       | None => manifest l !! chunk
       end)
  ∧ dom (manifest l) ⊆ dom (manifest (hot manifest_ messages_ l))
  ∧ cache (hot manifest_ messages_ l) = updateCache_cache messages_ (cache l)
  ∧ loadedChunksPerLocale (hot manifest_ messages_ l) = loadedChunksPerLocale l
  ∧ chunkIdsToLoad (hot manifest_ messages_ l) = chunkIdsToLoad l
  ∧ locale (hot manifest_ messages_ l) = locale l.
Proof.
  unfold hot, updateCache, object_assign; simpl. split_and!; try done.
  - intros chunk. rewrite lookup_union.
    destruct (manifest_ !! chunk), (manifest l !! chunk); done.
  - rewrite dom_union_L. set_solver.
Qed.

(** ** What the synchronous methods leave alone *)

Lemma is_loaded_setChunkIdAsLoaded c locale_ c0 locale0 l :
  is_loaded c locale_ (setChunkIdAsLoaded c0 locale0 l) = true
  ↔ is_loaded c locale_ l = true ∨ (c = c0 ∧ locale_ = locale0).
Proof.
  unfold is_loaded, setChunkIdAsLoaded; simpl.
  destruct (decide (locale0 = locale_)) as [->|Hne].
  - destruct (loadedChunksPerLocale l !! locale_) as [set|] eqn:Hset;
      rewrite lookup_insert_eq, bool_decide_eq_true.
    + rewrite bool_decide_eq_true. set_solver.
    + set_solver.
  - destruct (loadedChunksPerLocale l !! locale0);
      rewrite lookup_insert_ne by done; naive_solver.
Qed.

Lemma mark_locales_fields c0 group l :
  chunkIdsToLoad (mark_locales c0 group l) = chunkIdsToLoad l
  ∧ manifest (mark_locales c0 group l) = manifest l
  ∧ cache (mark_locales c0 group l) = cache l
  ∧ locale (mark_locales c0 group l) = locale l.
Proof.
  unfold mark_locales.
  apply (map_fold_weak_ind (λ r (_ : Messages),
    chunkIdsToLoad r = chunkIdsToLoad l ∧ manifest r = manifest l
    ∧ cache r = cache l ∧ locale r = locale l)); [done|].
  intros i x m r _ IH. exact IH.
Qed.

Lemma mark_locales_is_loaded c locale_ c0 group l :
  is_loaded c locale_ (mark_locales c0 group l) = true
  ↔ is_loaded c locale_ l = true ∨ (c = c0 ∧ is_Some (group !! locale_)).
Proof.
  unfold mark_locales.
  apply (map_fold_weak_ind (λ r (m : Messages),
    is_loaded c locale_ r = true
    ↔ is_loaded c locale_ l = true ∨ (c = c0 ∧ is_Some (m !! locale_)))).
  - rewrite lookup_empty. split; [by left|]. intros [?|[_ []]]; done.
  - intros i x m r Hi IH. rewrite is_loaded_setChunkIdAsLoaded, IH.
    rewrite lookup_insert. case_decide; subst.
    + rewrite Hi. split; [|naive_solver].
      intros [[?|[? []]]|[? _]]; try done; eauto.
    + naive_solver.
Qed.

Lemma hydrate_fields l entry :
  chunkIdsToLoad (hydrate l entry) = chunkIdsToLoad l
  ∧ manifest (hydrate l entry) = manifest l
  ∧ cache (hydrate l entry) = updateCache_cache entry.2 (cache l)
  ∧ locale (hydrate l entry) = locale l.
Proof.
  destruct entry as [name group]; unfold hydrate.
  destruct (mark_locales_fields (IdStr name) group (updateCache group l))
    as (-> & -> & -> & ->). done.
Qed.

Lemma construct_fields manifest_ chunkIds cached :
  chunkIdsToLoad (construct manifest_ chunkIds cached) = set_of_array chunkIds
  ∧ manifest (construct manifest_ chunkIds cached) = manifest_
  ∧ locale (construct manifest_ chunkIds cached) = None.
Proof.
  unfold construct.
  induction cached as [|entry cached IH] using rev_ind; [done|].
  rewrite foldl_app; simpl.
  destruct (hydrate_fields (foldl hydrate
    (mkLoader (set_of_array chunkIds) manifest_ ∅ None ∅) cached) entry)
    as (-> & -> & _ & ->). exact IH.
Qed.

(** ** Initialization *)

(** C9. [initialize] throws when the manifest is missing, throws when the
    extension point already holds a loader, and otherwise builds the loader
    from the manifest and stores it there, after which every further call
    throws: the loader is created at most once. *)
Theorem initialize_once (cached : option Cached) (w : WebpackRequire) :
  match intlManifest w, intlChunkLoader w with
  | None, _ => initialize cached w = inl (Error_ manifest_not_found)
  | Some _, SlotLoader _ => initialize cached w = inl (Error_ called_twice)
  | Some manifest_, _ =>
      ∃ l w', initialize cached w = inr (l, w')
              ∧ intlChunkLoader w' = SlotLoader l
              ∧ manifest l = manifest_
              ∧ ∀ cached', initialize cached' w' = inl (Error_ called_twice)
  end.
Proof.
  unfold initialize.
  destruct (intlManifest w) as [manifest_|]; [|done].
  destruct (intlChunkLoader w); try done;
    eexists _, _; (split_and!; [done|done|apply construct_fields|done]).
Qed.

(** ** [load] *)

Lemma load_skip c locale_ s :
  load_skips c locale_ (loader s) = true → load c locale_ s = (Resolved, s).
Proof. unfold load. by intros ->. Qed.

Lemma load_inv c locale_ s p s1 :
  load c locale_ s = (p, s1) →
  loader s1 = loader s ∧ chains s1 = chains s
  ∧ ((p = Resolved ∧ s1 = s ∧ load_skips c locale_ (loader s) = true)
     ∨ (p = OfRequest (length (requests s))
        ∧ load_skips c locale_ (loader s) = false
        ∧ requests s1 = requests s ++
            [mkRequest c locale_
               (default "" (manifest_src c locale_ (loader s))) Sent])).
Proof.
  unfold load. destruct (load_skips c locale_ (loader s)) eqn:Hskip;
    intros [= <- <-]; simpl; eauto 10.
Qed.

Lemma finish_lookup r st reqs req :
  reqs !! r = Some req →
  finish r st reqs !! r
  = Some (mkRequest (req_chunkId req) (req_locale req) (req_src req) st).
Proof. intros Hr. unfold finish. by rewrite list_lookup_alter_eq, Hr. Qed.

Lemma on_load_parsed r text parsed s req :
  requests s !! r = Some req → req_state req = Sent →
  JSON_parse text = Some parsed →
  on_load r text s =
    mkSystem
      (setChunkIdAsLoaded (req_chunkId req) (req_locale req)
         (updateCache {[ req_locale req := parsed ]} (loader s)))
      (finish r (Done text) (requests s)) (resolve_in r <$> chains s).
Proof. unfold on_load. by intros -> -> ->. Qed.

Lemma on_load_unparsed r text s req :
  requests s !! r = Some req → req_state req = Sent →
  JSON_parse text = None →
  on_load r text s =
    mkSystem (loader s) (finish r (Done text) (requests s))
             (reject_in r SyntaxError <$> chains s).
Proof. unfold on_load. by intros -> -> ->. Qed.

(** C3. [load] returns the resolved promise and leaves the system as it is,
    so opens no request, when the manifest has no resource for the chunk and
    locale or the chunk is already recorded as loaded for the locale; and
    once the request of a first call has come back with a body that parses,
    a second call for the same pair is such a call. *)
Theorem load_without_request (c : ChunkId) (locale_ : string) (s : System) :
  (manifest_src c locale_ (loader s) = None ∨ is_loaded c locale_ (loader s) = true →
   load c locale_ s = (Resolved, s))
  ∧ (∀ r s1 text parsed,
       load c locale_ s = (OfRequest r, s1) →
       JSON_parse text = Some parsed →
       let s2 := on_load r text s1 in
       promise_of r s2 = Some PromiseFulfilled
       ∧ load c locale_ s2 = (Resolved, s2)).
Proof.
  split.
  - intros H. apply load_skip. unfold load_skips.
    destruct H as [-> | ->]; [done|]. apply orb_true_r.
  - intros r s1 text parsed Hload Hparse s2.
    apply load_inv in Hload as (_ & _ & [(? & _)|(Hr & _ & Hreqs)]); [done|].
    injection Hr as ->.
    assert (Hlk : requests s1 !! length (requests s)
                  = Some (mkRequest c locale_
                      (default "" (manifest_src c locale_ (loader s))) Sent)).
    { rewrite Hreqs. apply list_lookup_middle. done. }
    subst s2. rewrite (on_load_parsed _ _ _ _ _ Hlk eq_refl Hparse). simpl.
    split.
    + unfold promise_of; simpl.
      rewrite (finish_lookup _ _ _ _ Hlk). simpl. by rewrite Hparse.
    + apply load_skip; simpl. unfold load_skips.
      replace (is_loaded c locale_ _) with true; [apply orb_true_r|].
      symmetry. apply is_loaded_setChunkIdAsLoaded. by right.
Qed.

Lemma system_eta s : mkSystem (loader s) (requests s) (chains s) = s.
Proof. by destruct s. Qed.

Lemma load_all_spec ids locale_ s :
  (load_all ids locale_ s).2
  = mkSystem (loader s)
      (requests s ++ open_requests ids locale_ (loader s)) (chains s)
  ∧ awaited (load_all ids locale_ s).1
    = seq (length (requests s))
          (length (open_requests ids locale_ (loader s))).
Proof.
  revert s. induction ids as [|c ids IH]; intros s; simpl.
  - unfold open_requests; simpl. rewrite app_nil_r. by rewrite system_eta.
  - destruct (load c locale_ s) as [p s1] eqn:Hload.
    destruct (load_all ids locale_ s1) as [ps s2] eqn:Hall.
    destruct (IH s1) as [IH1 IH2]. rewrite Hall in IH1, IH2. simpl in *.
    apply load_inv in Hload
      as (Hl & Hc & [(-> & -> & Hskip)|(-> & Hskip & Hreqs)]).
    + unfold open_requests. rewrite filter_cons_False by congruence.
      split; [exact IH1|exact IH2].
    + unfold open_requests in *. rewrite filter_cons_True by done.
      rewrite fmap_cons. simpl. rewrite IH1, IH2, Hl, Hc, Hreqs.
      rewrite length_app; simpl. rewrite <- (assoc_L (++)); simpl.
      split; [done|]. f_equal. f_equal. lia.
Qed.

Lemma fan_out_spec locale_ viaSetLocale s :
  fan_out locale_ viaSetLocale s =
    (mkChain locale_ (length (chunkIdsToLoad (loader s)))
       (chunkIdsToLoad (loader s))
       (seq (length (requests s))
            (length (open_requests (chunkIdsToLoad (loader s)) locale_ (loader s))))
       viaSetLocale Pending,
     mkSystem (loader s)
       (requests s ++ open_requests (chunkIdsToLoad (loader s)) locale_ (loader s))
       (chains s)).
Proof.
  unfold fan_out.
  destruct (load_all_spec (chunkIdsToLoad (loader s)) locale_ s) as [H1 H2].
  destruct (load_all _ _ _) as [ps s1]. simpl in *. by rewrite H1, H2.
Qed.

Lemma spawn_spec locale_ viaSetLocale s :
  spawn locale_ viaSetLocale s =
    (length (chains s),
     mkSystem (loader s)
       (requests s ++ open_requests (chunkIdsToLoad (loader s)) locale_ (loader s))
       (chains s ++ [(fan_out locale_ viaSetLocale s).1])).
Proof. unfold spawn. by rewrite fan_out_spec. Qed.

Lemma open_requests_covers ids locale_ l c :
  c ∈ ids → load_skips c locale_ l = false →
  ∃ i src, open_requests ids locale_ l !! i = Some (mkRequest c locale_ src Sent)
           ∧ manifest_src c locale_ l = Some src.
Proof.
  intros Hin Hskip.
  assert (Hsrc : ∃ src, manifest_src c locale_ l = Some src).
  { unfold load_skips in Hskip. apply orb_false_elim in Hskip as [Hs _].
    destruct (manifest_src c locale_ l); [eauto|done]. }
  destruct Hsrc as [src Hsrc].
  assert (Hel : mkRequest c locale_ src Sent ∈ open_requests ids locale_ l).
  { unfold open_requests. apply list_elem_of_fmap. exists c.
    rewrite Hsrc. split; [done|]. by apply list_elem_of_filter. }
  apply list_elem_of_lookup in Hel as [i Hi]. eauto.
Qed.

Lemma reject_in_waiting r e ch :
  ch_status ch = Pending → r ∈ ch_waiting ch →
  ch_status (reject_in r e ch) = Rejected e.
Proof.
  intros Hst Hin. unfold reject_in. rewrite Hst.
  by rewrite decide_True.
Qed.

(** C2. When the body of request [r] does not parse, its [load] listener
    rejects the promise of that load with the [SyntaxError], fails every
    [loadPending] waiting for it with the same error, and leaves the loader
    untouched: the cache is unchanged and the chunk is not recorded.  A
    [loadPending] for the same locale after that opens a new request for the
    chunk, provided the chunk is in the pending set, still has its resource
    in the manifest and has not been recorded as loaded meanwhile. *)
Theorem load_parse_failure (r : nat) (text : string) (s : System)
    (req : Request) :
  requests s !! r = Some req →
  req_state req = Sent →
  JSON_parse text = None →
  let s' := on_load r text s in
  promise_of r s' = Some (PromiseRejected SyntaxError)
  ∧ loader s' = loader s
  ∧ (∀ t ch, chains s !! t = Some ch → ch_status ch = Pending →
             r ∈ ch_waiting ch →
             ch_status <$> chains s' !! t = Some (Rejected SyntaxError))
  ∧ (req_chunkId req ∈ chunkIdsToLoad (loader s) →
     load_skips (req_chunkId req) (req_locale req) (loader s) = false →
     ∃ r' src, (length (requests s') ≤ r')%nat
       ∧ requests (loadPending (req_locale req) s').2 !! r'
         = Some (mkRequest (req_chunkId req) (req_locale req) src Sent)
       ∧ manifest_src (req_chunkId req) (req_locale req) (loader s) = Some src).
Proof.
  intros Hr Hsent Hparse s'. subst s'.
  rewrite (on_load_unparsed _ _ _ _ Hr Hsent Hparse).
  split_and!; simpl.
  - unfold promise_of; simpl. rewrite (finish_lookup _ _ _ _ Hr). simpl.
    by rewrite Hparse.
  - done.
  - intros t ch Ht Hst Hin. rewrite list_lookup_fmap, Ht. simpl.
    by rewrite reject_in_waiting.
  - intros Hin Hskip.
    destruct (open_requests_covers _ _ _ _ Hin Hskip) as (i & src & Hi & Hsrc).
    exists (length (finish r (Done text) (requests s)) + i), src.
    split_and!; [lia| |done].
    unfold loadPending. rewrite spawn_spec. simpl.
    rewrite lookup_app_r by lia.
    rewrite <- Hi. f_equal. lia.
Qed.


(** ** The effect of each reaction, case by case *)

Lemma then_loadPending_inv t s :
  then_loadPending t s = s
  ∨ ∃ ch, chains s !! t = Some ch ∧ ch_status ch = Pending ∧ ch_waiting ch = []
      ∧ ((ch_size ch < length (chunkIdsToLoad (loader s))
          ∧ then_loadPending t s =
              mkSystem (loader s)
                (requests s ++ open_requests (chunkIdsToLoad (loader s))
                                 (ch_locale ch) (loader s))
                (<[t := (fan_out (ch_locale ch) (ch_setLocale ch) s).1]> (chains s)))
         ∨ (¬ ch_size ch < length (chunkIdsToLoad (loader s))
            ∧ then_loadPending t s =
                mkSystem (loader s) (requests s)
                  (<[t := with_status Settled ch]> (chains s)))).
Proof.
  unfold then_loadPending.
  destruct (chains s !! t) as [ch|] eqn:Ht; [|by left].
  destruct (ch_status ch) eqn:Hst; try by left.
  destruct (ch_waiting ch) eqn:Hw; [|by left].
  right. exists ch. split_and!; try done.
  case_decide; [left|right]; (split; [done|]).
  - by rewrite fan_out_spec.
  - done.
Qed.

Lemma then_setLocale_inv t s :
  then_setLocale t s = s
  ∨ ∃ ch, chains s !! t = Some ch ∧ ch_status ch = Settled
      ∧ ch_setLocale ch = true
      ∧ then_setLocale t s =
          mkSystem
            (mkLoader (chunkIdsToLoad (loader s)) (manifest (loader s))
               (cache (loader s)) (Some (ch_locale ch))
               (loadedChunksPerLocale (loader s)))
            (requests s) (<[t := with_status Fulfilled ch]> (chains s)).
Proof.
  unfold then_setLocale.
  destruct (chains s !! t) as [ch|] eqn:Ht; [|by left].
  destruct (ch_status ch) eqn:Hst; try by left.
  destruct (ch_setLocale ch) eqn:Hv; [|by left].
  right. by exists ch.
Qed.

Lemma push_spec c s :
  push c s =
    let s1 := with_loader
                (mkLoader (set_add c (chunkIdsToLoad (loader s)))
                   (manifest (loader s)) (cache (loader s))
                   (locale (loader s)) (loadedChunksPerLocale (loader s))) s in
    if truthy (locale (loader s))
    then load c (default "" (locale (loader s))) s1
    else (Resolved, s1).
Proof. done. Qed.

(** ** The empty locale *)

(** C10. When the chain of [setLocale("")] has settled, its callback stores
    the empty string as the locale; from then on the [messages] getter
    answers [undefined], and [push] adds the chunk to the pending set and
    returns the resolved promise without opening a request. *)
Theorem empty_locale_is_inactive (t : nat) (s : System) (ch : Chain) :
  chains s !! t = Some ch →
  ch_status ch = Settled →
  ch_setLocale ch = true →
  ch_locale ch = "" →
  let s' := then_setLocale t s in
  locale (loader s') = Some ""
  ∧ messages (loader s') = None
  ∧ ∀ c, (push c s').1 = Resolved
         ∧ requests (push c s').2 = requests s'
         ∧ chunkIdsToLoad (loader (push c s').2)
           = set_add c (chunkIdsToLoad (loader s')).
Proof.
  intros Ht Hst Hv Hl s'. subst s'.
  unfold then_setLocale. rewrite Ht, Hst, Hv, Hl.
  split_and!; try done.
Qed.

(** ** Hydration *)

(** C5. A loader constructed from [{ main: { en: { greeting: "hi" } } }] and
    the chunk ids [['main']] has the messages in its cache and [main]
    recorded as loaded for [en]; [setLocale("en")] then opens no request,
    its chain runs to the end, and [messages] is [{ greeting: "hi" }],
    whatever the manifest says. *)
Theorem hydration_needs_no_request (manifest_ : Manifest) :
  let s0 := boot manifest_ [IdStr "main"] hydration_cached in
  let t := (setLocale "en" s0).1 in
  let s1 := (setLocale "en" s0).2 in
  let s2 := then_setLocale t (then_loadPending t s1) in
  cache (loader s0) = {[ "en" := {[ "greeting" := "hi" ]} ]}
  ∧ loadedChunksPerLocale (loader s0) = {[ "en" := {[ IdStr "main" ]} ]}
  ∧ requests s1 = []
  ∧ requests s2 = []
  ∧ ch_status <$> chains s2 !! t = Some Fulfilled
  ∧ locale (loader s2) = Some "en"
  ∧ messages (loader s2) = Some {[ "greeting" := "hi" ]}.
Proof.
  intros s0 t s1 s2. subst t s1 s2 s0. unfold boot.
  assert (H0 : construct manifest_ [IdStr "main"] hydration_cached
               = mkLoader [IdStr "main"] manifest_
                   {[ "en" := {[ "greeting" := "hi" ]} ]} None
                   {[ "en" := {[ IdStr "main" ]} ]}).
  { vm_compute. reflexivity. }
  rewrite H0. clear H0.
  unfold setLocale. rewrite spawn_spec, fan_out_spec. simpl.
  unfold open_requests. rewrite filter_cons_False; simpl.
  - simpl. split_and!; reflexivity.
  - intros Hskip. unfold load_skips in Hskip.
    apply orb_false_elim in Hskip as [_ Hloaded].
    vm_compute in Hloaded. discriminate.
Qed.

(** ** How one event changes the loader and the chains *)

Lemma on_load_inv r text s :
  on_load r text s = s
  ∨ ∃ req, requests s !! r = Some req ∧ req_state req = Sent
      ∧ ((∃ parsed, JSON_parse text = Some parsed
            ∧ on_load r text s =
                mkSystem
                  (setChunkIdAsLoaded (req_chunkId req) (req_locale req)
                     (updateCache {[ req_locale req := parsed ]} (loader s)))
                  (finish r (Done text) (requests s))
                  (resolve_in r <$> chains s))
         ∨ (JSON_parse text = None
            ∧ on_load r text s =
                mkSystem (loader s) (finish r (Done text) (requests s))
                         (reject_in r SyntaxError <$> chains s))).
Proof.
  destruct (requests s !! r) as [req|] eqn:Hr;
    [|left; unfold on_load; by rewrite Hr].
  destruct (req_state req) eqn:Hst;
    try (left; unfold on_load; by rewrite Hr, Hst).
  right. exists req. split_and!; try done.
  destruct (JSON_parse text) as [parsed|] eqn:Hp; [left|right].
  - exists parsed. split; [done|]. by apply (on_load_parsed r text parsed s req).
  - split; [done|]. by apply (on_load_unparsed r text s req).
Qed.

Lemma on_error_inv r s :
  on_error r s = s
  ∨ ∃ req, requests s !! r = Some req ∧ req_state req = Sent
      ∧ on_error r s =
          mkSystem (loader s) (finish r Failed (requests s))
                   (reject_in r (ErrorEvent r) <$> chains s).
Proof.
  unfold on_error.
  destruct (requests s !! r) as [req|] eqn:Hr; [|by left].
  destruct (req_state req) eqn:Hst; try by left.
  right. by exists req.
Qed.

Lemma push_inv c s :
  loader (push c s).2 =
    mkLoader (set_add c (chunkIdsToLoad (loader s))) (manifest (loader s))
      (cache (loader s)) (locale (loader s)) (loadedChunksPerLocale (loader s))
  ∧ chains (push c s).2 = chains s
  ∧ ((push c s).1 = Resolved ∧ requests (push c s).2 = requests s
     ∨ ∃ req, requests (push c s).2 = requests s ++ [req]
              ∧ req_state req = Sent).
Proof.
  rewrite push_spec. cbv zeta.
  destruct (truthy (locale (loader s))); [|simpl; eauto].
  match goal with |- context [load ?c ?l ?s1] =>
    destruct (load c l s1) as [p s2] eqn:Hload end.
  apply load_inv in Hload as (Hl & Hc & [(-> & -> & _)|(-> & _ & Hreqs)]);
    simpl in *; [eauto|].
  rewrite Hl, Hc, Hreqs. split_and!; try done. right. eauto.
Qed.



Lemma insert_chain_step s ev t t' ch ch0 ch' :
  chains s !! t = Some ch → chains s !! t' = Some ch0 →
  (t = t' → chain_step s ev t ch ch') →
  ∃ ch'', <[t' := ch']> (chains s) !! t = Some ch'' ∧ chain_step s ev t ch ch''.
Proof.
  intros Ht Ht' Hstep. destruct (decide (t = t')) as [->|Hne].
  - exists ch'. split; [|by apply Hstep].
    apply list_lookup_insert_eq. by eapply lookup_lt_Some.
  - exists ch. split; [|constructor].
    by rewrite list_lookup_insert_ne.
Qed.

Lemma step_chain s ev t ch :
  chains s !! t = Some ch →
  ∃ ch', chains (step s ev) !! t = Some ch' ∧ chain_step s ev t ch ch'.
Proof.
  intros Ht. destruct ev as [c l|l|l|c|m msgs|msgs|r text|r|t'|t']; simpl.
  - destruct (load c l s) as [p s1] eqn:Hload. simpl.
    apply load_inv in Hload as (_ & Hc & _). rewrite Hc.
    exists ch. split; [done|constructor].
  - unfold loadPending. rewrite spawn_spec. simpl.
    exists ch. split; [by apply lookup_app_l_Some|constructor].
  - unfold setLocale. rewrite spawn_spec. simpl.
    exists ch. split; [by apply lookup_app_l_Some|constructor].
  - destruct (push_inv c s) as (_ & -> & _).
    exists ch. split; [done|constructor].
  - exists ch. split; [done|constructor].
  - exists ch. split; [done|constructor].
  - destruct (on_load_inv r text s)
      as [->|(req & Hr & Hst & [(parsed & Hp & ->)|(Hp & ->)])]; simpl.
    + exists ch. split; [done|constructor].
    + exists (resolve_in r ch). rewrite list_lookup_fmap, Ht.
      split; [done|]. by eapply chain_resolve.
    + exists (reject_in r SyntaxError ch). rewrite list_lookup_fmap, Ht.
      split; [done|]. apply chain_reject. left. eauto.
  - destruct (on_error_inv r s) as [->|(req & Hr & Hst & ->)]; simpl.
    + exists ch. split; [done|constructor].
    + exists (reject_in r (ErrorEvent r) ch). rewrite list_lookup_fmap, Ht.
      split; [done|]. apply chain_reject. by right.
  - destruct (then_loadPending_inv t' s)
      as [->|(ch0 & Ht' & Hst & Hw & [(Hlt & Heq)|(Hlt & Heq)])].
    + exists ch. split; [done|constructor].
    + rewrite Heq. simpl. eapply insert_chain_step; [done..|].
      intros ->. assert (ch0 = ch) as -> by congruence.
      apply chain_again; try done. simpl. by rewrite Heq.
    + rewrite Heq. simpl. eapply insert_chain_step; [done..|].
      intros ->. assert (ch0 = ch) as -> by congruence.
      by apply chain_settle.
  - destruct (then_setLocale_inv t' s) as [->|(ch0 & Ht' & Hst & Hv & Heq)].
    + exists ch. split; [done|constructor].
    + rewrite Heq. simpl. eapply insert_chain_step; [done..|].
      intros ->. assert (ch0 = ch) as -> by congruence.
      apply chain_fulfil; try done. simpl. by rewrite Heq.
Qed.

Lemma effect_refl s ev : effect s ev s.
Proof. apply (effect_requests s ev s []); [done| |done]. by rewrite app_nil_r. Qed.

Lemma open_requests_sent ids locale_ l :
  Forall (λ req, req_state req = Sent) (open_requests ids locale_ l).
Proof. unfold open_requests. apply Forall_fmap, Forall_forall. done. Qed.

Lemma step_effect s ev : effect s ev (step s ev).
Proof.
  destruct ev as [c l|l|l|c|m msgs|msgs|r text|r|t|t]; simpl.
  - destruct (load c l s) as [p s1] eqn:Hload. simpl.
    apply load_inv in Hload as (Hl & _ & [(_ & -> & _)|(_ & _ & Hreqs)]).
    + apply effect_refl.
    + eapply effect_requests; [done..|]. by repeat constructor.
  - unfold loadPending. rewrite spawn_spec. simpl.
    eapply effect_requests; [done..|]. apply open_requests_sent.
  - unfold setLocale. rewrite spawn_spec. simpl.
    eapply effect_requests; [done..|]. apply open_requests_sent.
  - destruct (push_inv c s) as (Hl & _ & [[_ Hr]|(req & Hr & Hst)]).
    + eapply (effect_push _ _ _ c []); [done..| |done]. by rewrite app_nil_r.
    + eapply effect_push; [done..|]. by repeat constructor.
  - by eapply effect_merge.
  - eapply (effect_merge _ _ _ msgs (manifest (loader s))); [|done]. simpl.
    by destruct (loader s).
  - destruct (on_load_inv r text s)
      as [->|(req & Hr & Hst & [(parsed & Hp & ->)|(Hp & ->)])].
    + apply effect_refl.
    + by eapply effect_parsed.
    + eapply effect_failed; eauto.
  - destruct (on_error_inv r s) as [->|(req & Hr & Hst & ->)].
    + apply effect_refl.
    + eapply effect_failed; eauto.
  - destruct (then_loadPending_inv t s)
      as [->|(ch0 & Ht' & Hst & Hw & [(Hlt & ->)|(Hlt & ->)])].
    + apply effect_refl.
    + eapply effect_requests; [done..|]. apply open_requests_sent.
    + apply (effect_requests _ _ _ []); [done| |done]. simpl.
      by rewrite app_nil_r.
  - destruct (then_setLocale_inv t s) as [->|(ch0 & Ht' & Hst & Hv & ->)].
    + apply effect_refl.
    + by eapply effect_assign.
Qed.

Lemma set_add_prefix c ids : ids `prefix_of` set_add c ids.
Proof.
  unfold set_add. case_decide; [done|]. by apply prefix_app_r.
Qed.

Lemma effect_pending s ev s' :
  effect s ev s' →
  chunkIdsToLoad (loader s) `prefix_of` chunkIdsToLoad (loader s').
Proof.
  intros Heff. effect_cases Heff; rewrite Hl; simpl; try done.
  apply set_add_prefix.
Qed.

Lemma effect_locale s ev s' :
  effect s ev s' →
  locale (loader s') = locale (loader s)
  ∨ ∃ t ch, ev = ThenSetLocale t ∧ chains s !! t = Some ch
      ∧ ch_status ch = Settled ∧ ch_setLocale ch = true
      ∧ locale (loader s') = Some (ch_locale ch).
Proof.
  intros Heff. effect_cases Heff; rewrite Hl; simpl; eauto 10.
Qed.


(** ** Failure and success of [setLocale] *)

Lemma chain_step_final s ev t ch ch' :
  chain_step s ev t ch ch' →
  (∀ e, ch_status ch = Rejected e → ch' = ch)
  ∧ (ch_status ch = Fulfilled → ch' = ch)
  ∧ (ch_status ch = Settled → ch_setLocale ch = false → ch' = ch).
Proof.
  intros [ |r text _|r e _|_ Hst _ _ _|_ Hst _ _ _|_ Hst Hv _];
    unfold resolve_in, reject_in;
    (split_and!; [intros e' He|intros He|intros He Hv']); try congruence;
    by rewrite He.
Qed.



(** ** Convergence of [loadPending] *)






(** ** Loaded chunks have their messages in the cache *)

Lemma merged_into_dom msgs (cache_ : Messages) locale_ :
  merged_into msgs cache_ locale_
  ↔ ∃ b, cache_ !! locale_ = Some b ∧ dom msgs ⊆ dom b.
Proof.
  split.
  - intros (older & later & Hlk). eexists; split; [done|].
    rewrite !dom_union_L. set_solver.
  - intros (b & Hlk & Hdom). exists ∅, b. rewrite Hlk. f_equal.
    apply map_eq; intros i. rewrite !lookup_union, lookup_empty.
    destruct (b !! i) as [x|] eqn:Hb; [by destruct (msgs !! i)|].
    apply not_elem_of_dom in Hb.
    assert (msgs !! i = None) as -> by (apply not_elem_of_dom; set_solver).
    done.
Qed.

Lemma merged_into_grows msgs (c1 c2 : Messages) locale_ :
  cache_grows c1 c2 → merged_into msgs c1 locale_ → merged_into msgs c2 locale_.
Proof.
  rewrite !merged_into_dom. intros Hg (b1 & Hlk & Hdom).
  destruct (Hg _ _ Hlk) as (b2 & Hlk2 & Hdom2). exists b2. set_solver.
Qed.

Lemma cache_grows_refl (c : Messages) : cache_grows c c.
Proof. intros l b Hlk. eauto. Qed.

Lemma updateCache_cache_grows messages_ (cache_ : Messages) :
  cache_grows cache_ (updateCache_cache messages_ cache_).
Proof.
  intros l b Hlk. rewrite updateCache_cache_lookup, Hlk.
  destruct (messages_ !! l) as [msgs|]; [|eauto]. simpl.
  eexists; split; [done|]. rewrite dom_union_L. set_solver.
Qed.

Lemma updateCache_cache_merged messages_ (cache_ : Messages) locale_ msgs :
  messages_ !! locale_ = Some msgs →
  merged_into msgs (updateCache_cache messages_ cache_) locale_.
Proof.
  intros Hm. exists (default ∅ (cache_ !! locale_)), ∅.
  rewrite updateCache_cache_lookup, Hm. f_equal.
  by rewrite (left_id_L ∅ (∪)).
Qed.

Lemma effect_cache s ev s' :
  effect s ev s' → cache_grows (cache (loader s)) (cache (loader s')).
Proof.
  intros Heff. effect_cases Heff; rewrite Hl; simpl;
    first [apply cache_grows_refl | apply updateCache_cache_grows].
Qed.

Lemma fetched_app reqs new c locale_ msgs :
  Forall (λ req, req_state req = Sent) new →
  fetched (reqs ++ new) c locale_ msgs ↔ fetched reqs c locale_ msgs.
Proof.
  intros Hnew. split.
  - intros (r & req & text & Hlk & Hc & Hl & Hst & Hp).
    apply lookup_app_Some in Hlk as [Hlk|[_ Hlk]].
    + exists r, req, text. done.
    + rewrite Forall_forall in Hnew.
      apply list_elem_of_lookup_2, Hnew in Hlk. congruence.
  - intros (r & req & text & Hlk & Hrest).
    exists r, req, text. split; [|done]. by apply lookup_app_l_Some.
Qed.

Lemma fetched_finish reqs r req st c locale_ msgs :
  reqs !! r = Some req → req_state req = Sent →
  fetched (finish r st reqs) c locale_ msgs
  ↔ fetched reqs c locale_ msgs
    ∨ (c = req_chunkId req ∧ locale_ = req_locale req
       ∧ ∃ text, st = Done text ∧ JSON_parse text = Some msgs).
Proof.
  intros Hr Hsent. split.
  - intros (r' & req' & text & Hlk & Hc & Hl & Hst & Hp).
    destruct (decide (r' = r)) as [->|Hne].
    + rewrite (finish_lookup _ _ _ _ Hr) in Hlk. injection Hlk as <-.
      simpl in *. right. eauto 10.
    + left. exists r', req', text. split; [|done].
      unfold finish in Hlk. by rewrite list_lookup_alter_ne in Hlk.
  - intros [(r' & req' & text & Hlk & Hc & Hl & Hst & Hp)
           |(-> & -> & text & -> & Hp)].
    + assert (r' ≠ r) by (intros ->; congruence).
      exists r', req', text. split; [|done].
      unfold finish. by rewrite list_lookup_alter_ne.
    + exists r, (mkRequest (req_chunkId req) (req_locale req) (req_src req)
                  (Done text)), text.
      split; [by apply finish_lookup|done].
Qed.

Lemma payloads_merged_step cached s ev :
  payloads_merged cached s → payloads_merged cached (step s ev).
Proof.
  intros [Hmerged Hloaded].
  pose proof (step_effect s ev) as Heff.
  pose proof (effect_cache _ _ _ Heff) as Hgrow.
  unfold payloads_merged, payload_of in *.
  effect_cases Heff; rewrite Hreqs.
  - split.
    + intros c l msgs Hpay. rewrite fetched_app in Hpay by done.
      eapply merged_into_grows; eauto.
    + intros c l Hc. rewrite Hl in Hc.
      destruct (Hloaded c l Hc) as [msgs Hpay]. exists msgs.
      by rewrite fetched_app.
  - split.
    + intros c l msgs Hpay. rewrite fetched_app in Hpay by done.
      eapply merged_into_grows; eauto.
    + intros c l Hc. rewrite Hl in Hc.
      destruct (Hloaded c l Hc) as [msgs Hpay]. exists msgs.
      by rewrite fetched_app.
  - split.
    + intros c l msgs Hpay. eapply merged_into_grows; eauto.
    + intros c l Hc. rewrite Hl in Hc. by apply Hloaded.
  - split.
    + intros c l msgs [Hpre|Hf].
      * eapply merged_into_grows; eauto.
      * apply (fetched_finish _ _ _ _ _ _ _ Hr Hsent) in Hf
          as [Hf|(-> & -> & text' & [= <-] & Hp')].
        -- eapply merged_into_grows; eauto.
        -- rewrite Hl. simpl. apply updateCache_cache_merged.
           rewrite lookup_singleton_eq. congruence.
    + intros c l Hc. rewrite Hl in Hc.
      apply is_loaded_setChunkIdAsLoaded in Hc as [Hc|[-> ->]].
      * destruct (Hloaded c l Hc) as [msgs [Hpre|Hf]]; exists msgs;
          [by left|right].
        apply (fetched_finish _ _ _ _ _ _ _ Hr Hsent). by left.
      * exists parsed. right.
        apply (fetched_finish _ _ _ _ _ _ _ Hr Hsent). right. eauto.
  - split.
    + intros c l msgs [Hpre|Hf].
      * eapply merged_into_grows; eauto.
      * apply (fetched_finish _ _ _ _ _ _ _ Hr Hsent) in Hf
          as [Hf|(-> & -> & text' & -> & Hp')].
        -- eapply merged_into_grows; eauto.
        -- destruct Hst as [?|(text & [= <-] & Hnone)]; congruence.
    + intros c l Hc. rewrite Hl in Hc.
      destruct (Hloaded c l Hc) as [msgs [Hpre|Hf]]; exists msgs;
        [by left|right].
      apply (fetched_finish _ _ _ _ _ _ _ Hr Hsent). by left.
  - split.
    + intros c l msgs Hpay. eapply merged_into_grows; eauto.
    + intros c l Hc. rewrite Hl in Hc. by apply Hloaded.
Qed.

Lemma payloads_merged_run cached evs s :
  payloads_merged cached s → payloads_merged cached (run evs s).
Proof.
  revert s. induction evs as [|ev evs IH]; intros s Hinv; [done|].
  simpl. by apply IH, payloads_merged_step.
Qed.

Lemma hydrated_merged manifest_ chunkIds cached :
  let l := construct manifest_ chunkIds cached in
  (∀ c locale_ msgs, preseeded cached c locale_ msgs →
                     merged_into msgs (cache l) locale_)
  ∧ (∀ c locale_, is_loaded c locale_ l = true →
                  ∃ msgs, preseeded cached c locale_ msgs).
Proof.
  unfold construct.
  induction cached as [|[name group] cached IH] using rev_ind; simpl.
  - split.
    + intros c l msgs (n & g & Hin & _). by apply elem_of_nil in Hin.
    + intros c l Hc. done.
  - rewrite foldl_app. simpl.
    set (l0 := foldl hydrate (mkLoader (set_of_array chunkIds) manifest_ ∅ None ∅)
                 cached) in *.
    destruct IH as [IH1 IH2].
    destruct (mark_locales_fields (IdStr name) group (updateCache group l0))
      as (_ & _ & Hcache & _).
    split.
    + intros c l msgs (n & g & Hin & -> & Hg). rewrite Hcache. simpl.
      apply elem_of_app in Hin as [Hin|Hin].
      * eapply merged_into_grows; [apply updateCache_cache_grows|].
        apply (IH1 (IdStr n)). exists n, g. done.
      * apply list_elem_of_singleton in Hin as [= -> ->].
        by apply updateCache_cache_merged.
    + intros c l Hc.
      apply mark_locales_is_loaded in Hc as [Hc|[-> [msgs Hg]]].
      * destruct (IH2 c l Hc) as (msgs & n & g & Hin & Heq & Hg).
        exists msgs, n, g. split; [|done]. apply elem_of_app. by left.
      * exists msgs, name, group. split; [|done].
        apply elem_of_app. right. by apply list_elem_of_singleton.
Qed.

Lemma payloads_merged_boot manifest_ chunkIds cached :
  payloads_merged cached (boot manifest_ chunkIds cached).
Proof.
  destruct (hydrated_merged manifest_ chunkIds cached) as [H1 H2].
  split.
  - intros c l msgs [Hpre|(r & req & text & Hlk & _)]; [by apply (H1 c)|done].
  - intros c l Hc. destruct (H2 c l Hc) as [msgs Hpre]. exists msgs. by left.
Qed.

(** C4, amended. In every state reached from the constructor by calls of
    [load], [loadPending], [setLocale], [push], [hot] and [updateCache], by
    the events of the requests and by the promise reactions, that is by every
    operation but a direct call of [setChunkIdAsLoaded], a chunk recorded as
    loaded for a locale has a payload for that locale, from the pre-seeded
    cache or from a request, and every such payload has been merged into the
    cache bucket of the locale. *)
Theorem loaded_chunks_are_merged (manifest_ : Manifest)
    (chunkIds : list ChunkId) (cached : Cached) (evs : list Event) :
  loaded_merged cached (run evs (boot manifest_ chunkIds cached)).
Proof.
  destruct (payloads_merged_run cached evs _
              (payloads_merged_boot manifest_ chunkIds cached)) as [H1 H2].
  intros c l Hc. split; [by apply H2|]. intros msgs Hpay. by apply (H1 c).
Qed.

(** ** Further properties of the loaded bookkeeping *)

Lemma setChunkIdAsLoaded_lookup c locale0 l k :
  loadedChunksPerLocale (setChunkIdAsLoaded c locale0 l) !! k =
    if decide (locale0 = k)
    then Some (default ∅ (loadedChunksPerLocale l !! locale0) ∪ {[c]})
    else loadedChunksPerLocale l !! k.
Proof.
  unfold setChunkIdAsLoaded; simpl.
  destruct (loadedChunksPerLocale l !! locale0) as [set|] eqn:Hset;
    case_decide; subst; simplify_map_eq; try done.
  f_equal. set_solver.
Qed.

Lemma loader_eq l1 l2 :
  chunkIdsToLoad l1 = chunkIdsToLoad l2 → manifest l1 = manifest l2 →
  cache l1 = cache l2 → locale l1 = locale l2 →
  loadedChunksPerLocale l1 = loadedChunksPerLocale l2 → l1 = l2.
Proof. destruct l1, l2; simpl; by intros -> -> -> -> ->. Qed.

Lemma setChunkIdAsLoaded_comm c1 locale1 c2 locale2 l :
  setChunkIdAsLoaded c1 locale1 (setChunkIdAsLoaded c2 locale2 l)
  = setChunkIdAsLoaded c2 locale2 (setChunkIdAsLoaded c1 locale1 l).
Proof.
  apply loader_eq; try done.
  apply map_eq; intros k. rewrite !setChunkIdAsLoaded_lookup.
  repeat case_decide; subst; try done; simpl; f_equal; set_solver.
Qed.

(** X1. [setChunkIdAsLoaded] behaves as adding to a set of pairs: recording
    a pair twice is recording it once, two recordings commute, and afterwards
    exactly the pairs recorded before and the new pair are recorded; the
    pending set, manifest, cache and locale are left alone. *)
Theorem setChunkIdAsLoaded_adds_a_pair (c1 c2 : ChunkId)
    (locale1 locale2 : string) (l : IntlChunkLoader) :
  setChunkIdAsLoaded c1 locale1 (setChunkIdAsLoaded c1 locale1 l)
    = setChunkIdAsLoaded c1 locale1 l
  ∧ setChunkIdAsLoaded c1 locale1 (setChunkIdAsLoaded c2 locale2 l)
    = setChunkIdAsLoaded c2 locale2 (setChunkIdAsLoaded c1 locale1 l)
  ∧ is_loaded c2 locale2 (setChunkIdAsLoaded c1 locale1 l)
    = is_loaded c2 locale2 l || bool_decide (c2 = c1 ∧ locale2 = locale1)
  ∧ (chunkIdsToLoad (setChunkIdAsLoaded c1 locale1 l),
     manifest (setChunkIdAsLoaded c1 locale1 l),
     cache (setChunkIdAsLoaded c1 locale1 l),
     locale (setChunkIdAsLoaded c1 locale1 l))
    = (chunkIdsToLoad l, manifest l, cache l, locale l).
Proof.
  split_and!.
  - apply loader_eq; try done.
    apply map_eq; intros k. rewrite !setChunkIdAsLoaded_lookup.
    case_decide; subst; [|done].
    rewrite decide_True by done. simpl. f_equal. set_solver.
  - apply setChunkIdAsLoaded_comm.
  - apply eq_true_iff_eq.
    rewrite is_loaded_setChunkIdAsLoaded, orb_true_iff, bool_decide_eq_true.
    done.
  - done.
Qed.

Lemma construct_loaded_names manifest_ chunkIds cached c locale_ :
  is_loaded c locale_ (construct manifest_ chunkIds cached) = true →
  ∃ name group, (name, group) ∈ cached ∧ c = IdStr name
                ∧ is_Some (group !! locale_).
Proof.
  intros Hc.
  destruct (hydrated_merged manifest_ chunkIds cached) as [_ H2].
  destruct (H2 c locale_ Hc) as (msgs & name & group & Hin & -> & Hg).
  eauto 10.
Qed.

(** X2. The constructor records hydrated chunk groups under their names,
    which are strings: a numeric chunk id is never recorded by it, although
    the manifest is read for it under the same key as for its decimal
    string.  So on a fresh loader [load] of a numeric chunk id opens a
    request exactly when the manifest has a non-empty resource for it,
    whatever [cached] held. *)
Theorem hydration_never_records_numbers (manifest_ : Manifest)
    (chunkIds : list ChunkId) (cached : Cached) (n : Z) (locale_ : string) :
  let s := boot manifest_ chunkIds cached in
  is_loaded (IdNum n) locale_ (loader s) = false
  ∧ manifest_src (IdNum n) locale_ (loader s)
    = manifest_src (IdStr (pretty n)) locale_ (loader s)
  ∧ (load (IdNum n) locale_ s).1
    = if truthy (manifest_ !! pretty n ≫= (λ perLocale, perLocale !! locale_))
      then OfRequest 0 else Resolved.
Proof.
  intros s. subst s. simpl.
  assert (Hno : is_loaded (IdNum n) locale_
                  (construct manifest_ chunkIds cached) = false).
  { destruct (is_loaded _ _ _) eqn:Hc; [|done].
    apply construct_loaded_names in Hc as (name & _ & _ & Heq & _). done. }
  split_and!; [done|done|].
  unfold load, load_skips. simpl. rewrite Hno, orb_false_r.
  unfold manifest_src.
  destruct (construct_fields manifest_ chunkIds cached) as (_ & -> & _).
  simpl. by destruct (truthy _).
Qed.

(** ** What holds along every run *)

Lemma run_preserves (P : System → Prop) :
  (∀ s ev, P s → P (step s ev)) → ∀ evs s, P s → P (run evs s).
Proof.
  intros Hstep evs. induction evs as [|ev evs IH]; intros s Hs; [done|].
  simpl. by apply IH, Hstep.
Qed.

Lemma run_extends (R : System → System → Prop) :
  (∀ s, R s s) → (∀ s1 s2 s3, R s1 s2 → R s2 s3 → R s1 s3) →
  (∀ s ev, R s (step s ev)) → ∀ evs s, R s (run evs s).
Proof.
  intros Hrefl Htrans Hstep evs.
  induction evs as [|ev evs IH]; intros s; [apply Hrefl|].
  simpl. eapply Htrans; [apply Hstep|apply IH].
Qed.

Lemma set_add_NoDup c ids : NoDup ids → NoDup (set_add c ids).
Proof.
  intros Hnd. unfold set_add. case_decide; [done|].
  apply NoDup_app. split_and!; [done| |apply NoDup_singleton].
  intros x Hx Hx'. apply list_elem_of_singleton in Hx' as ->. done.
Qed.

Lemma set_add_elem_of c c' ids : c' ∈ set_add c ids ↔ c' ∈ ids ∨ c' = c.
Proof.
  unfold set_add. case_decide.
  - split; [by left|]. intros [? | ->]; done.
  - rewrite elem_of_app, list_elem_of_singleton. done.
Qed.

Lemma set_of_array_spec chunkIds :
  NoDup (set_of_array chunkIds)
  ∧ ∀ c, c ∈ set_of_array chunkIds ↔ c ∈ chunkIds.
Proof.
  unfold set_of_array.
  induction chunkIds as [|c0 chunkIds IH] using rev_ind.
  - split; [constructor|done].
  - rewrite foldl_app. simpl. destruct IH as [IH1 IH2]. split.
    + by apply set_add_NoDup.
    + intros c. rewrite set_add_elem_of, IH2, elem_of_app,
        list_elem_of_singleton. done.
Qed.

(** X3. The pending set is a set kept in registration order: a fresh loader
    holds exactly the chunk ids it was given, without repetition; no event
    removes or reorders a pending chunk id, since the list before a run is a
    prefix of the list after it; and no reachable state holds a chunk id
    twice. *)
Theorem pending_set_grows_in_order (manifest_ : Manifest)
    (chunkIds : list ChunkId) (cached : Cached) (evs evs' : list Event) :
  let s0 := boot manifest_ chunkIds cached in
  let s := run evs s0 in
  (∀ c, c ∈ chunkIdsToLoad (loader s0) ↔ c ∈ chunkIds)
  ∧ NoDup (chunkIdsToLoad (loader s))
  ∧ chunkIdsToLoad (loader s) `prefix_of` chunkIdsToLoad (loader (run evs' s)).
Proof.
  intros s0 s. subst s s0. split_and!.
  - intros c. simpl.
    destruct (construct_fields manifest_ chunkIds cached) as (-> & _).
    apply set_of_array_spec.
  - apply (run_preserves (λ s, NoDup (chunkIdsToLoad (loader s)))).
    + intros s ev Hnd. pose proof (step_effect s ev) as Heff.
      effect_cases Heff; rewrite Hl; simpl; try done.
      by apply set_add_NoDup.
    + simpl.
      destruct (construct_fields manifest_ chunkIds cached) as (-> & _).
      apply set_of_array_spec.
  - apply (run_extends (λ s s', chunkIdsToLoad (loader s)
                                 `prefix_of` chunkIdsToLoad (loader s'))).
    + done.
    + intros s1 s2 s3 H12 H23. by etrans.
    + intros s ev. eapply effect_pending, step_effect.
Qed.

Lemma cache_grows_trans (c1 c2 c3 : Messages) :
  cache_grows c1 c2 → cache_grows c2 c3 → cache_grows c1 c3.
Proof.
  intros H12 H23 l b1 Hb1.
  destruct (H12 l b1 Hb1) as (b2 & Hb2 & Hd12).
  destruct (H23 l b2 Hb2) as (b3 & Hb3 & Hd23).
  exists b3. split; [done|]. set_solver.
Qed.

(** X4. The cache only accumulates: whatever events follow, a locale bucket
    that exists keeps existing and a message id that is in it stays in it
    (its text may be overwritten). *)
Theorem cache_keys_accumulate (evs : list Event) (s : System)
    (locale_ id : string) (bucket : LocaleMessages) :
  cache (loader s) !! locale_ = Some bucket →
  is_Some (bucket !! id) →
  ∃ bucket', cache (loader (run evs s)) !! locale_ = Some bucket'
             ∧ is_Some (bucket' !! id).
Proof.
  intros Hb Hid.
  assert (Hg : cache_grows (cache (loader s)) (cache (loader (run evs s)))).
  { apply (run_extends (λ s s', cache_grows (cache (loader s))
                                  (cache (loader s')))).
    - intros s1. apply cache_grows_refl.
    - intros s1 s2 s3. apply cache_grows_trans.
    - intros s1 ev. eapply effect_cache, step_effect. }
  destruct (Hg locale_ bucket Hb) as (bucket' & Hb' & Hdom).
  exists bucket'. split; [done|].
  apply elem_of_dom. apply elem_of_dom in Hid. set_solver.
Qed.

Lemma effect_loaded s ev s' c locale_ :
  effect s ev s' →
  is_loaded c locale_ (loader s) = true →
  is_loaded c locale_ (loader s') = true.
Proof.
  intros Heff Hc. effect_cases Heff; rewrite Hl; try done.
  apply is_loaded_setChunkIdAsLoaded. by left.
Qed.

(** X5. Loaded is for good: once a chunk is recorded as loaded for a locale,
    it stays recorded whatever events follow, hot updates of its manifest
    entry included, and [load] for that pair keeps returning the resolved
    promise without opening a request. *)
Theorem loaded_is_permanent (evs : list Event) (s : System) (c : ChunkId)
    (locale_ : string) :
  is_loaded c locale_ (loader s) = true →
  is_loaded c locale_ (loader (run evs s)) = true
  ∧ load c locale_ (run evs s) = (Resolved, run evs s).
Proof.
  intros Hc.
  assert (Hc' : is_loaded c locale_ (loader (run evs s)) = true).
  { revert Hc.
    apply (run_extends (λ s s', is_loaded c locale_ (loader s) = true →
                                is_loaded c locale_ (loader s') = true)).
    - done.
    - intros s1 s2 s3 H12 H23 H1. by apply H23, H12.
    - intros s1 ev. eapply effect_loaded, step_effect. }
  split; [done|]. apply load_skip. unfold load_skips.
  rewrite Hc'. apply orb_true_r.
Qed.

(** ** Requests that are opened, and requests that are not *)

(** X6. [load] only skips chunks whose load has completed: called twice for
    a pair that needs loading, before any response, it opens two requests
    for the same resource. *)
Theorem load_twice_in_flight (c : ChunkId) (locale_ : string) (s : System) :
  load_skips c locale_ (loader s) = false →
  let req := mkRequest c locale_
               (default "" (manifest_src c locale_ (loader s))) Sent in
  let first := load c locale_ s in
  let second := load c locale_ first.2 in
  first.1 = OfRequest (length (requests s))
  ∧ second.1 = OfRequest (S (length (requests s)))
  ∧ requests second.2 = requests s ++ [req; req].
Proof.
  intros Hskip req first second. subst second first req.
  assert (H1 : load c locale_ s
               = (OfRequest (length (requests s)),
                  mkSystem (loader s)
                    (requests s ++
                       [mkRequest c locale_
                          (default "" (manifest_src c locale_ (loader s))) Sent])
                    (chains s)))
    by (unfold load; by rewrite Hskip).
  rewrite H1. simpl. unfold load. simpl. rewrite Hskip. simpl.
  rewrite length_app, <- (assoc_L (++)). simpl.
  split_and!; try done. f_equal. lia.
Qed.

(** X7. [loadPending] opens one request for each pending chunk that [load]
    does not skip, in the order of the pending set, with the resource the
    manifest gives for the locale, and none else; it waits for exactly these
    and changes nothing in the loader. *)
Theorem loadPending_requests (locale_ : string) (s : System) :
  let needed := filter (λ c, load_skips c locale_ (loader s) = false)
                       (chunkIdsToLoad (loader s)) in
  requests (loadPending locale_ s).2
    = requests s
      ++ ((λ c, mkRequest c locale_
                  (default "" (manifest_src c locale_ (loader s))) Sent)
            <$> needed)
  ∧ chains (loadPending locale_ s).2 !! (loadPending locale_ s).1
    = Some (mkChain locale_ (length (chunkIdsToLoad (loader s)))
              (chunkIdsToLoad (loader s))
              (seq (length (requests s)) (length needed)) false Pending)
  ∧ loader (loadPending locale_ s).2 = loader s.
Proof.
  intros needed. subst needed. unfold loadPending.
  rewrite spawn_spec, fan_out_spec. simpl. unfold open_requests.
  rewrite length_fmap. split_and!; try done.
  by apply list_lookup_middle.
Qed.

Lemma open_requests_nil ids locale_ l :
  (∀ c, c ∈ ids → load_skips c locale_ l = true) →
  open_requests ids locale_ l = [].
Proof.
  unfold open_requests. induction ids as [|c ids IH]; intros Hall; [done|].
  rewrite filter_cons_False.
  - apply IH. intros c' Hc'. apply Hall. by right.
  - rewrite (Hall c) by left. done.
Qed.

(** X8. When no pending chunk needs a request for a locale, because each is
    recorded for it or has no resource for it, [setLocale] opens no request
    and its two callbacks make the locale active; the cache is unchanged, so
    [messages] is the bucket of the locale, [undefined] if nothing was ever
    merged for it. *)
Theorem setLocale_without_requests (locale_ : string) (s : System) :
  (∀ c, c ∈ chunkIdsToLoad (loader s) →
        load_skips c locale_ (loader s) = true) →
  let t := (setLocale locale_ s).1 in
  let s2 := then_setLocale t (then_loadPending t (setLocale locale_ s).2) in
  requests s2 = requests s
  ∧ locale (loader s2) = Some locale_
  ∧ cache (loader s2) = cache (loader s)
  ∧ loadedChunksPerLocale (loader s2) = loadedChunksPerLocale (loader s)
  ∧ ch_status <$> chains s2 !! t = Some Fulfilled
  ∧ messages (loader s2)
    = if truthy (Some locale_) then cache (loader s) !! locale_ else None.
Proof.
  intros Hall t s2. subst t s2. unfold setLocale.
  rewrite spawn_spec, fan_out_spec. simpl.
  rewrite (open_requests_nil _ _ _ Hall). simpl. rewrite app_nil_r.
  unfold then_loadPending. simpl.
  rewrite list_lookup_middle by done. simpl.
  rewrite decide_False by lia. simpl.
  unfold then_setLocale. simpl.
  rewrite list_lookup_insert_eq by (rewrite length_app; simpl; lia). simpl.
  rewrite list_lookup_insert_eq
    by (rewrite length_insert, length_app; simpl; lia).
  split_and!; done.
Qed.

(** X9. A network error on request [r] rejects the promise of that load with
    the error event, fails every [loadPending] waiting for it, and leaves the
    loader untouched; a [loadPending] for the same locale after that opens a
    new request for the chunk, provided the chunk is in the pending set and
    [load] would still not skip it. *)
Theorem load_network_error (r : nat) (s : System) (req : Request) :
  requests s !! r = Some req →
  req_state req = Sent →
  let s' := on_error r s in
  promise_of r s' = Some (PromiseRejected (ErrorEvent r))
  ∧ loader s' = loader s
  ∧ (∀ t ch, chains s !! t = Some ch → ch_status ch = Pending →
             r ∈ ch_waiting ch →
             ch_status <$> chains s' !! t = Some (Rejected (ErrorEvent r)))
  ∧ (req_chunkId req ∈ chunkIdsToLoad (loader s) →
     load_skips (req_chunkId req) (req_locale req) (loader s) = false →
     ∃ r' src, (length (requests s') ≤ r')%nat
       ∧ requests (loadPending (req_locale req) s').2 !! r'
         = Some (mkRequest (req_chunkId req) (req_locale req) src Sent)
       ∧ manifest_src (req_chunkId req) (req_locale req) (loader s) = Some src).
Proof.
  intros Hr Hsent s'. subst s'. unfold on_error. rewrite Hr, Hsent.
  split_and!; simpl.
  - unfold promise_of; simpl. by rewrite (finish_lookup _ _ _ _ Hr).
  - done.
  - intros t ch Ht Hst Hin. rewrite list_lookup_fmap, Ht. simpl.
    by rewrite reject_in_waiting.
  - intros Hin Hskip.
    destruct (open_requests_covers _ _ _ _ Hin Hskip) as (i & src & Hi & Hsrc).
    exists (length (finish r Failed (requests s)) + i), src.
    split_and!; [lia| |done].
    unfold loadPending. rewrite spawn_spec. simpl.
    rewrite lookup_app_r by lia.
    rewrite <- Hi. f_equal. lia.
Qed.

(** X10. With a locale active, [push] of a chunk that needs loading opens
    one request for it in that locale; when the body comes back and parses,
    the chunk is recorded for the locale and [messages] is the body merged
    over what the bucket held. *)
Theorem push_catches_up (c : ChunkId) (locale_ text : string)
    (parsed : LocaleMessages) (s : System) :
  locale (loader s) = Some locale_ →
  locale_ ≠ "" →
  load_skips c locale_ (loader s) = false →
  JSON_parse text = Some parsed →
  let r := length (requests s) in
  let s1 := (push c s).2 in
  let s2 := on_load r text s1 in
  (push c s).1 = OfRequest r
  ∧ requests s1
    = requests s
      ++ [mkRequest c locale_
            (default "" (manifest_src c locale_ (loader s))) Sent]
  ∧ c ∈ chunkIdsToLoad (loader s1)
  ∧ is_loaded c locale_ (loader s2) = true
  ∧ messages (loader s2)
    = Some (parsed ∪ default ∅ (cache (loader s) !! locale_)).
Proof.
  intros Hloc Hne Hskip Hparse r s1 s2. subst r s1 s2.
  assert (Heqb : String.eqb locale_ "" = false) by by apply String.eqb_neq.
  set (l1 := mkLoader (set_add c (chunkIdsToLoad (loader s)))
               (manifest (loader s)) (cache (loader s)) (Some locale_)
               (loadedChunksPerLocale (loader s))).
  set (req := mkRequest c locale_
                (default "" (manifest_src c locale_ (loader s))) Sent).
  assert (Hpush : push c s
                  = (OfRequest (length (requests s)),
                     mkSystem l1 (requests s ++ [req]) (chains s))).
  { rewrite push_spec. cbv zeta. rewrite Hloc. simpl. rewrite Heqb. simpl.
    unfold load. simpl.
    replace (load_skips c locale_ _) with false; done. }
  rewrite Hpush. simpl.
  assert (Hload : on_load (length (requests s)) text
                    (mkSystem l1 (requests s ++ [req]) (chains s))
                  = mkSystem
                      (setChunkIdAsLoaded c locale_
                         (updateCache {[ locale_ := parsed ]} l1))
                      (finish (length (requests s)) (Done text)
                         (requests s ++ [req]))
                      (resolve_in (length (requests s)) <$> chains s)).
  { rewrite (on_load_parsed (length (requests s)) text parsed _ req);
      [done| |done|done].
    simpl. by apply list_lookup_middle. }
  rewrite Hload. simpl.
  split_and!; try done.
  - apply set_add_elem_of. by right.
  - apply is_loaded_setChunkIdAsLoaded. by right.
  - unfold messages. simpl. rewrite Heqb. simpl.
    by rewrite updateCache_cache_lookup, lookup_singleton_eq.
Qed.

(** ** Merging into the cache *)

(** X11. What [updateCache] leaves in the cache, message by message: an id
    of the payload gets the text of the payload, every other id keeps the
    text it had, a locale of the payload has a bucket afterwards, even for an
    empty payload, and a locale the payload does not name is untouched. *)
Theorem updateCache_last_writer_wins (messages_ : Messages)
    (l : IntlChunkLoader) (locale_ id : string) :
  cache (updateCache messages_ l) !! locale_ ≫= (λ bucket, bucket !! id)
    = match messages_ !! locale_ ≫= (λ msgs, msgs !! id) with
      | Some text => Some text
      | None => cache l !! locale_ ≫= (λ bucket, bucket !! id)
      end
  ∧ (is_Some (cache (updateCache messages_ l) !! locale_)
     ↔ is_Some (messages_ !! locale_) ∨ is_Some (cache l !! locale_))
  ∧ (messages_ !! locale_ = None →
     cache (updateCache messages_ l) !! locale_ = cache l !! locale_).
Proof.
  unfold updateCache; simpl. rewrite updateCache_cache_lookup.
  destruct (messages_ !! locale_) as [msgs|] eqn:Hm; simpl.
  - split_and!.
    + rewrite lookup_union.
      destruct (msgs !! id) as [text|]; simpl.
      * by destruct (default ∅ (cache l !! locale_) !! id).
      * rewrite (left_id_L None _).
        by destruct (cache l !! locale_).
    + split; [eauto|]. intros _. eauto.
    + done.
  - split_and!; [done| |done].
    split; [by right|]. intros [[? ?]|?]; done.
Qed.

Lemma updateCache_cache_comm (m1 m2 cache_ : Messages) :
  (∀ locale_ b1 b2, m1 !! locale_ = Some b1 → m2 !! locale_ = Some b2 →
                    b1 ##ₘ b2) →
  updateCache_cache m1 (updateCache_cache m2 cache_)
  = updateCache_cache m2 (updateCache_cache m1 cache_).
Proof.
  intros Hdisj. apply map_eq; intros k.
  rewrite !updateCache_cache_lookup.
  destruct (m1 !! k) as [b1|] eqn:H1, (m2 !! k) as [b2|] eqn:H2; simpl;
    try done.
  f_equal. rewrite !(assoc_L (∪)). f_equal.
  apply map_union_comm. by eapply Hdisj.
Qed.

Lemma resolve_in_comm r1 r2 ch :
  resolve_in r1 (resolve_in r2 ch) = resolve_in r2 (resolve_in r1 ch).
Proof.
  unfold resolve_in. destruct (ch_status ch) eqn:Hst; simpl; try by rewrite Hst.
  f_equal. induction (ch_waiting ch) as [|x xs IH]; [done|].
  rewrite !filter_cons. repeat case_decide; rewrite ?filter_cons;
    repeat case_decide; try done; by rewrite IH.
Qed.

(** X12. The order of two responses does not matter when their bodies do not
    collide: for two requests in flight whose bodies parse, are for
    different locales or share no message id, handling the [load] events in
    either order gives the same loader, requests and chains. *)
Theorem responses_commute (r1 r2 : nat) (text1 text2 : string)
    (req1 req2 : Request) (parsed1 parsed2 : LocaleMessages) (s : System) :
  r1 ≠ r2 →
  requests s !! r1 = Some req1 → req_state req1 = Sent →
  requests s !! r2 = Some req2 → req_state req2 = Sent →
  JSON_parse text1 = Some parsed1 →
  JSON_parse text2 = Some parsed2 →
  req_locale req1 ≠ req_locale req2 ∨ parsed1 ##ₘ parsed2 →
  on_load r1 text1 (on_load r2 text2 s) = on_load r2 text2 (on_load r1 text1 s).
Proof.
  intros Hne Hr1 Hs1 Hr2 Hs2 Hp1 Hp2 Hdisj.
  rewrite (on_load_parsed r2 text2 parsed2 s req2) by done.
  rewrite (on_load_parsed r1 text1 parsed1 s req1) by done.
  rewrite (on_load_parsed r1 text1 parsed1 _ req1);
    [|simpl; unfold finish; by rewrite list_lookup_alter_ne|done|done].
  rewrite (on_load_parsed r2 text2 parsed2 _ req2);
    [|simpl; unfold finish; by rewrite list_lookup_alter_ne|done|done].
  simpl. f_equal.
  - change (updateCache {[req_locale req1 := parsed1]}
              (setChunkIdAsLoaded (req_chunkId req2) (req_locale req2)
                 (updateCache {[req_locale req2 := parsed2]} (loader s))))
      with (setChunkIdAsLoaded (req_chunkId req2) (req_locale req2)
              (updateCache {[req_locale req1 := parsed1]}
                 (updateCache {[req_locale req2 := parsed2]} (loader s)))).
    change (updateCache {[req_locale req2 := parsed2]}
              (setChunkIdAsLoaded (req_chunkId req1) (req_locale req1)
                 (updateCache {[req_locale req1 := parsed1]} (loader s))))
      with (setChunkIdAsLoaded (req_chunkId req1) (req_locale req1)
              (updateCache {[req_locale req2 := parsed2]}
                 (updateCache {[req_locale req1 := parsed1]} (loader s)))).
    rewrite setChunkIdAsLoaded_comm. f_equal. f_equal.
    apply loader_eq; try done. simpl.
    apply updateCache_cache_comm. intros k b1 b2 Hb1 Hb2.
    apply lookup_singleton_Some in Hb1 as [<- <-].
    apply lookup_singleton_Some in Hb2 as [Hk <-].
    destruct Hdisj as [Hl|Hd]; [congruence|done].
  - unfold finish. apply list_eq; intros i.
    rewrite !list_lookup_alter.
    repeat case_decide; subst; try done.
  - rewrite <- !list_fmap_compose. apply list_fmap_ext.
    intros i ch _. simpl. apply resolve_in_comm.
Qed.

(** ** Promise chains and the locale along every run *)

Lemma final_chain_step s ev t ch :
  chains s !! t = Some ch →
  ch_status ch = Fulfilled ∨ ch_status ch = Settled ∧ ch_setLocale ch = false
  ∨ (∃ e, ch_status ch = Rejected e) →
  chains (step s ev) !! t = Some ch.
Proof.
  intros Ht Hfinal.
  destruct (step_chain s ev t ch Ht) as (ch' & Ht' & Hstep).
  apply chain_step_final in Hstep as (Hrej & Hful & Hset).
  destruct Hfinal as [Hst|[[Hst Hv]|[e Hst]]];
    [rewrite (Hful Hst) in Ht'|rewrite (Hset Hst Hv) in Ht'
    |rewrite (Hrej e Hst) in Ht']; done.
Qed.

(** X13. A promise settles once: the chain of a [setLocale] that has
    assigned its locale, and the chain of a plain [loadPending] that has
    settled, are never changed again by any event. *)
Theorem settled_chains_are_final (evs : list Event) (s : System) (t : nat)
    (ch : Chain) :
  chains s !! t = Some ch →
  ch_status ch = Fulfilled ∨ ch_status ch = Settled ∧ ch_setLocale ch = false →
  chains (run evs s) !! t = Some ch.
Proof.
  intros Ht Hfinal. revert Ht.
  apply (run_extends (λ s s', chains s !! t = Some ch →
                              chains s' !! t = Some ch)).
  - done.
  - intros s1 s2 s3 H12 H23 H1. by apply H23, H12.
  - intros s1 ev H1. apply final_chain_step; [done|].
    destruct Hfinal as [?|?]; eauto.
Qed.

Lemma locale_justified_step s ev :
  locale_justified s → locale_justified (step s ev).
Proof.
  unfold locale_justified. intros Hj.
  destruct (effect_locale _ _ _ (step_effect s ev))
    as [Heq|(t & ch & -> & Ht & Hst & Hv & Heq)]; rewrite Heq.
  - destruct (locale (loader s)) as [locale_|]; [|done].
    destruct Hj as (t & ch & Ht & Hst & Hv & Hl).
    exists t, ch. split; [|done]. apply final_chain_step; eauto.
  - exists t, (with_status Fulfilled ch). simpl.
    unfold then_setLocale. rewrite Ht, Hst, Hv. simpl.
    split; [|done]. apply list_lookup_insert_eq. by eapply lookup_lt_Some.
Qed.

(** X14. In every state reached from the constructor the locale is either
    still unset or the locale of a [setLocale] call whose chain is
    fulfilled, so whose [loadPending] settled; and a locale that is set is
    never unset again. *)
Theorem locale_comes_from_a_settled_setLocale (manifest_ : Manifest)
    (chunkIds : list ChunkId) (cached : Cached) (evs evs' : list Event) :
  let s := run evs (boot manifest_ chunkIds cached) in
  locale_justified s
  ∧ (is_Some (locale (loader s)) → is_Some (locale (loader (run evs' s)))).
Proof.
  intros s. subst s. split.
  - apply (run_preserves locale_justified).
    + apply locale_justified_step.
    + unfold locale_justified. simpl.
      by destruct (construct_fields manifest_ chunkIds cached) as (_ & _ & ->).
  - apply (run_extends (λ s s', is_Some (locale (loader s)) →
                                is_Some (locale (loader s')))).
    + done.
    + intros s1 s2 s3 H12 H23 H1. by apply H23, H12.
    + intros s1 ev H1.
      destruct (effect_locale _ _ _ (step_effect s1 ev))
        as [->|(t & ch & _ & _ & _ & _ & ->)]; eauto.
Qed.

(** ** The constructor and hot updates, seen through the getters *)

Lemma hydrate_is_loaded c locale_ l name group :
  is_loaded c locale_ (hydrate l (name, group)) = true
  ↔ is_loaded c locale_ l = true
    ∨ (c = IdStr name ∧ is_Some (group !! locale_)).
Proof. unfold hydrate. by rewrite mark_locales_is_loaded. Qed.

Lemma construct_is_loaded manifest_ chunkIds cached c locale_ :
  is_loaded c locale_ (construct manifest_ chunkIds cached) = true
  ↔ ∃ name group, (name, group) ∈ cached ∧ c = IdStr name
                  ∧ is_Some (group !! locale_).
Proof.
  unfold construct.
  induction cached as [|[name group] cached IH] using rev_ind.
  - simpl. split; [done|]. intros (n & g & Hin & _). by apply elem_of_nil in Hin.
  - rewrite foldl_app. cbn [foldl]. rewrite hydrate_is_loaded, IH. split.
    + intros [(n & g & Hin & Hc & Hg)|[Hc Hg]].
      * exists n, g. split; [|done]. apply elem_of_app. by left.
      * exists name, group. split; [|done].
        apply elem_of_app. right. by apply list_elem_of_singleton.
    + intros (n & g & Hin & Hc & Hg).
      apply elem_of_app in Hin as [Hin|Hin]; [left; eauto 10|right].
      apply list_elem_of_singleton in Hin as [= -> ->]. done.
Qed.

(** X18. The constructor records exactly the pairs of a chunk group name and
    a locale found in [cached]; the group names do not become pending, the
    pending set being the chunk ids given; and no locale is active. *)
Theorem construct_records_hydrated_pairs (manifest_ : Manifest)
    (chunkIds : list ChunkId) (cached : Cached) (c : ChunkId)
    (locale_ : string) :
  let l := construct manifest_ chunkIds cached in
  (is_loaded c locale_ l = true
   ↔ ∃ name group, (name, group) ∈ cached ∧ c = IdStr name
                   ∧ is_Some (group !! locale_))
  ∧ chunkIdsToLoad l = set_of_array chunkIds
  ∧ locale l = None
  ∧ messages l = None.
Proof.
  intros l. subst l.
  destruct (construct_fields manifest_ chunkIds cached) as (Hids & _ & Hloc).
  split_and!; [apply construct_is_loaded|done|done|].
  unfold messages. by rewrite Hloc.
Qed.

(** X19. With a locale active, the messages of a hot update for that locale
    show in [messages] at once, merged over what the bucket held; a hot
    update without messages for the active locale leaves [messages] as it
    was. *)
Theorem hot_shows_in_messages (manifest_ : Manifest) (messages_ : Messages)
    (l : IntlChunkLoader) (locale_ : string) :
  locale l = Some locale_ →
  locale_ ≠ "" →
  messages (hot manifest_ messages_ l)
  = match messages_ !! locale_ with
    | Some msgs => Some (msgs ∪ default ∅ (cache l !! locale_))
    | None => messages l
    end.
Proof.
  intros Hloc Hne.
  assert (Heqb : String.eqb locale_ "" = false) by by apply String.eqb_neq.
  unfold messages, hot, updateCache. simpl. rewrite Hloc. simpl.
  rewrite Heqb. simpl. rewrite updateCache_cache_lookup.
  by destruct (messages_ !! locale_).
Qed.

(** ** Rewriting the scripts of [package.json] *)

Lemma string_app_nil (s : string) : "" +:+ s = s.
Proof. reflexivity. Qed.

Lemma string_app_cons a (s t : string) : String a s +:+ t = String a (s +:+ t).
Proof. reflexivity. Qed.

Lemma string_app_assoc (a b c : string) : (a +:+ b) +:+ c = a +:+ b +:+ c.
Proof.
  induction a as [|x a IH]; [done|]. rewrite !string_app_cons. by f_equal.
Qed.

Lemma string_app_length (a b : string) :
  String.length (a +:+ b) = String.length a + String.length b.
Proof.
  induction a as [|x a IH]; [done|]. rewrite string_app_cons. simpl.
  by rewrite IH.
Qed.

Lemma strip_prefix_Some pattern s rest :
  strip_prefix pattern s = Some rest ↔ s = pattern +:+ rest.
Proof.
  revert s. induction pattern as [|a pattern IH]; intros s.
  - rewrite string_app_nil. destruct s; simpl; split; congruence.
  - rewrite string_app_cons. destruct s as [|b s]; simpl; [done|].
    destruct (Ascii.eqb a b) eqn:Hab.
    + apply Ascii.eqb_eq in Hab as ->. rewrite IH. split; congruence.
    + apply Ascii.eqb_neq in Hab. split; congruence.
Qed.

Lemma replace_first_eq pattern replacement s :
  replace_first pattern replacement s =
    match strip_prefix pattern s with
    | Some rest => replacement +:+ rest
    | None =>
        match s with
        | EmptyString => EmptyString
        | String b s' => String b (replace_first pattern replacement s')
        end
    end.
Proof. by destruct s. Qed.

Lemma replace_first_here pattern replacement rest :
  replace_first pattern replacement (pattern +:+ rest) = replacement +:+ rest.
Proof.
  rewrite replace_first_eq.
  by rewrite (proj2 (strip_prefix_Some pattern _ rest) eq_refl).
Qed.

Lemma replace_first_later pattern replacement b s :
  strip_prefix pattern (String b s) = None →
  replace_first pattern replacement (String b s)
  = String b (replace_first pattern replacement s).
Proof. intros H. by rewrite replace_first_eq, H. Qed.

Lemma replace_first_occurrence pattern replacement pre post :
  ∃ pre' post',
    pre +:+ pattern +:+ post = pre' +:+ pattern +:+ post'
    ∧ replace_first pattern replacement (pre +:+ pattern +:+ post)
      = pre' +:+ replacement +:+ post'.
Proof.
  induction pre as [|a pre IH].
  - exists "", post. split; [done|]. rewrite !string_app_nil.
    apply replace_first_here.
  - destruct (strip_prefix pattern (String a (pre +:+ pattern +:+ post)))
      as [rest|] eqn:Hstrip.
    + apply strip_prefix_Some in Hstrip. exists "", rest.
      rewrite !string_app_nil, !string_app_cons, Hstrip. split; [done|].
      apply replace_first_here.
    + destruct IH as (pre' & post' & Heq & Hrep).
      exists (String a pre'), post'. rewrite !string_app_cons.
      rewrite (replace_first_later _ _ _ _ Hstrip).
      by rewrite Hrep, Heq.
Qed.

Lemma replace_first_absent pattern replacement s :
  (∀ pre post, s ≠ pre +:+ pattern +:+ post) →
  replace_first pattern replacement s = s.
Proof.
  induction s as [|a s IH]; intros Hno.
  - rewrite replace_first_eq.
    destruct (strip_prefix pattern "") as [rest|] eqn:Hstrip; [|done].
    apply strip_prefix_Some in Hstrip. by destruct (Hno "" rest).
  - destruct (strip_prefix pattern (String a s)) as [rest|] eqn:Hstrip.
    + apply strip_prefix_Some in Hstrip. by destruct (Hno "" rest).
    + rewrite (replace_first_later _ _ _ _ Hstrip). f_equal.
      apply IH. intros pre post ->.
      by destruct (Hno (String a pre) post).
Qed.

(** X15. [replace] with a string pattern rewrites the leftmost occurrence
    only: a string in which the pattern first occurs after [pre] becomes
    [pre], the replacement, and what followed the pattern, later occurrences
    included; a string without the pattern is returned as it is. *)
Theorem replace_first_leftmost (pattern replacement s : string) :
  (∀ pre post,
     s = pre +:+ pattern +:+ post →
     (∀ pre' post', s = pre' +:+ pattern +:+ post' →
                    (String.length pre ≤ String.length pre')%nat) →
     replace_first pattern replacement s = pre +:+ replacement +:+ post)
  ∧ ((∀ pre post, s ≠ pre +:+ pattern +:+ post) →
     replace_first pattern replacement s = s).
Proof.
  split.
  - intros pre. revert s. induction pre as [|a pre IH]; intros s post -> Hmin.
    + rewrite !string_app_nil. apply replace_first_here.
    + rewrite !string_app_cons.
      destruct (strip_prefix pattern (String a (pre +:+ pattern +:+ post)))
        as [rest|] eqn:Hstrip.
      * apply strip_prefix_Some in Hstrip.
        specialize (Hmin "" rest Hstrip). simpl in Hmin. lia.
      * rewrite (replace_first_later _ _ _ _ Hstrip). f_equal.
        apply IH; [done|]. intros pre' post' Heq.
        specialize (Hmin (String a pre') post').
        rewrite !string_app_cons, Heq in Hmin.
        specialize (Hmin eq_refl). simpl in Hmin. lia.
  - apply replace_first_absent.
Qed.

Lemma rewrite_script_grows pre post :
  ∃ pre' post',
    rewrite_script (pre +:+ "react-scripts" +:+ post)
    = pre' +:+ "react-scripts" +:+ post'
    ∧ String.length (rewrite_script (pre +:+ "react-scripts" +:+ post))
      = String.length (pre +:+ "react-scripts" +:+ post) + 11.
Proof.
  unfold rewrite_script.
  destruct (replace_first_occurrence "react-scripts" "@react-app/react-scripts"
              pre post) as (pre' & post' & Heq & ->).
  exists (pre' +:+ "@react-app/"), post'. split.
  - by rewrite string_app_assoc.
  - rewrite Heq, !string_app_length. simpl. lia.
Qed.

(** X16. The rewriting of a script is not idempotent: the replacement
    contains the pattern, so a script that mentions [react-scripts] mentions
    it again after the rewriting, and every application makes it 11
    characters longer. *)
Theorem rewrite_script_never_settles (n : nat) (pre post : string) :
  let script := pre +:+ "react-scripts" +:+ post in
  String.length (Nat.iter n rewrite_script script)
    = String.length script + 11 * n
  ∧ ∃ pre' post',
      Nat.iter n rewrite_script script = pre' +:+ "react-scripts" +:+ post'.
Proof.
  intros script. subst script. induction n as [|n [IHlen IHocc]].
  - simpl. split; [lia|eauto].
  - destruct IHocc as (pre' & post' & Heq).
    destruct (rewrite_script_grows pre' post') as (pre'' & post'' & Heq' & Hlen).
    simpl Nat.iter. rewrite Heq. split; [|eauto].
    rewrite Hlen, <- Heq, IHlen. lia.
Qed.

(** X17. The loop over the scripts rewrites each script once and keeps the
    names: the result is the map of the rewritten scripts, and a script that
    does not mention [react-scripts] is kept as it is. *)
Theorem rewrite_scripts_maps (scripts : gmap string string) :
  rewrite_scripts scripts = rewrite_script <$> scripts
  ∧ dom (rewrite_scripts scripts) = dom scripts
  ∧ ∀ name script,
      scripts !! name = Some script →
      (∀ pre post, script ≠ pre +:+ "react-scripts" +:+ post) →
      rewrite_scripts scripts !! name = Some script.
Proof.
  assert (Hmap : rewrite_scripts scripts = rewrite_script <$> scripts).
  { apply map_eq; intros k. rewrite lookup_fmap. unfold rewrite_scripts.
    transitivity (match scripts !! k with
                  | Some _ => rewrite_script <$> scripts !! k
                  | None => scripts !! k
                  end); [|by destruct (scripts !! k)].
    apply (map_fold_weak_ind (λ (r : gmap string string) (m : gmap string string),
      r !! k = match m !! k with
               | Some _ => rewrite_script <$> scripts !! k
               | None => scripts !! k
               end)); [done|].
    intros i x m r Hi IH.
    destruct (decide (i = k)) as [->|Hne].
    - rewrite lookup_insert_eq. rewrite Hi in IH.
      destruct (r !! k) as [script|] eqn:Hr.
      + rewrite lookup_insert_eq. by rewrite <- IH.
      + by rewrite Hr, <- IH.
    - rewrite lookup_insert_ne by done.
      destruct (r !! i); [by rewrite lookup_insert_ne|done]. }
  split_and!; [done|by rewrite Hmap, dom_fmap_L|].
  intros name script Hname Hno. rewrite Hmap, lookup_fmap, Hname. simpl.
  f_equal. unfold rewrite_script.
  by apply replace_first_absent.
Qed.

End Loader.

(** ** The theorems at work on the fixtures *)

(** C3 on the fixture: chunk [c] has no resource, and chunk [a] is not
    requested again once its body has parsed. *)
Lemma load_without_request_witness :
  let s := mkSystem (construct fixture_manifest [IdStr "a"] []) [] [] in
  load (IdStr "c") "de" s = (Resolved, s)
  ∧ let s2 := on_load parse_fixture 0 "{}" (load (IdStr "a") "de" s).2 in
    promise_of parse_fixture 0 s2 = Some PromiseFulfilled
    ∧ load (IdStr "a") "de" s2 = (Resolved, s2).
Proof.
  intros s. split.
  - apply (proj1 (load_without_request parse_fixture (IdStr "c") "de" s)).
    left. vm_compute. reflexivity.
  - apply (proj2 (load_without_request parse_fixture (IdStr "a") "de" s)
             0 (load (IdStr "a") "de" s).2 "{}" ∅);
      vm_compute; reflexivity.
Defined.

(** C2 on the fixture: the body [oops] rejects the load and the chain, and
    the next [loadPending] asks for [a.de.json] again. *)
Lemma load_parse_failure_witness :
  let s' := on_load parse_fixture 0 "oops" fixture_in_flight in
  promise_of parse_fixture 0 s' = Some (PromiseRejected SyntaxError)
  ∧ loader s' = loader fixture_in_flight
  ∧ ch_status <$> chains s' !! 0 = Some (Rejected SyntaxError)
  ∧ ∃ r', (length (requests s') ≤ r')%nat
      ∧ requests (loadPending "de" s').2 !! r'
        = Some (mkRequest (IdStr "a") "de" "a.de.json" Sent).
Proof.
  intros s'.
  destruct (load_parse_failure parse_fixture 0 "oops" fixture_in_flight
              fixture_request eq_refl eq_refl eq_refl)
    as (Hpromise & Hloader & Hchain & Hretry).
  split_and!; [exact Hpromise|exact Hloader| |].
  - apply (Hchain 0 fixture_chain); [reflexivity|reflexivity|].
    apply list_elem_of_here.
  - destruct Hretry as (r' & src & Hle & Hlk & Hsrc).
    + apply list_elem_of_here.
    + vm_compute. reflexivity.
    + exists r'. split; [exact Hle|].
      assert (src = "a.de.json") as <-; [|exact Hlk].
      vm_compute in Hsrc. congruence.
Defined.

(** C10 on a loader hydrated with messages for the empty locale. *)
Lemma empty_locale_is_inactive_witness :
  let s := then_loadPending 0
             (setLocale ""
                (boot ∅ [IdStr "main"]
                   [("main", {[ "" := {[ "greeting" := "hi" ]} ]})])).2 in
  let s' := then_setLocale 0 s in
  cache (loader s') !! "" = Some {[ "greeting" := "hi" ]}
  ∧ locale (loader s') = Some ""
  ∧ messages (loader s') = None
  ∧ (push (IdStr "next") s').1 = Resolved.
Proof.
  intros s s'.
  destruct (empty_locale_is_inactive 0 s
              (mkChain "" 1 [IdStr "main"] [] true Settled)
              eq_refl eq_refl eq_refl eq_refl) as (Hlocale & Hmessages & Hpush).
  split_and!; [vm_compute; reflexivity|exact Hlocale|exact Hmessages|].
  exact (proj1 (Hpush (IdStr "next"))).
Defined.



(** C4, as stated, fails: [setChunkIdAsLoaded] is a method of the loader
    too, and called on its own it records a pair without merging anything.
    On a fresh loader, where the invariant holds, it leaves chunk [a]
    recorded for [de] although the manifest declares [a.de.json] and the
    cache has no bucket for [de]: the invariant no longer holds. *)
Lemma bare_setChunkIdAsLoaded_breaks_invariant :
  let s0 := boot fixture_manifest [IdStr "a"] [] in
  let s := with_loader (setChunkIdAsLoaded (IdStr "a") "de" (loader s0)) s0 in
  loaded_merged parse_fixture [] s0
  ∧ is_loaded (IdStr "a") "de" (loader s) = true
  ∧ manifest_src (IdStr "a") "de" (loader s) = Some "a.de.json"
  ∧ cache (loader s) !! "de" = None
  ∧ ¬ loaded_merged parse_fixture [] s.
Proof.
  intros s0 s. split_and!; try (vm_compute; reflexivity).
  - intros c locale_ Hc. exfalso. unfold is_loaded in Hc.
    replace (loadedChunksPerLocale (loader s0)) with
      (∅ : gmap string (gset ChunkId)) in Hc by (vm_compute; reflexivity).
    by rewrite lookup_empty in Hc.
  - intros Hinv.
    destruct (Hinv (IdStr "a") "de") as [[msgs Hpay] _];
      [vm_compute; reflexivity|].
    destruct Hpay as [(name & group & Hin & _)|(r & req & text & Hlk & _)].
    + by apply elem_of_nil in Hin.
    + by destruct r.
Qed.

(** C4 on a hydrated loader that also fetched chunk [a]: the pre-seeded
    greeting is in the bucket of [en], and the fetched body in that of
    [de]. *)
Lemma loaded_chunks_are_merged_witness :
  let s := run parse_fixture [CallSetLocale "de"; RequestLoad 0 "{}"]
             (boot fixture_manifest [IdStr "a"] hydration_cached) in
  merged_into {[ "greeting" := "hi" ]} (cache (loader s)) "en"
  ∧ merged_into ∅ (cache (loader s)) "de".
Proof.
  intros s. split.
  - apply (loaded_chunks_are_merged parse_fixture fixture_manifest
             [IdStr "a"] hydration_cached
             [CallSetLocale "de"; RequestLoad 0 "{}"] (IdStr "main") "en").
    + vm_compute. reflexivity.
    + left. exists "main", {[ "en" := {[ "greeting" := "hi" ]} ]}.
      split_and!; [apply list_elem_of_here|reflexivity|reflexivity].
  - apply (loaded_chunks_are_merged parse_fixture fixture_manifest
             [IdStr "a"] hydration_cached
             [CallSetLocale "de"; RequestLoad 0 "{}"] (IdStr "a") "de").
    + vm_compute. reflexivity.
    + right. exists 0, (mkRequest (IdStr "a") "de" "a.de.json" (Done "{}")), "{}".
      split_and!; vm_compute; reflexivity.
Defined.

(** X4 on the hydrated fixture: the greeting survives a hot update that
    overwrites it. *)
Lemma cache_keys_accumulate_witness :
  let s := boot fixture_manifest [IdStr "a"] hydration_cached in
  let evs := [CallHot ∅ {[ "en" := {[ "greeting" := "hello" ]} ]}] in
  ∃ bucket', cache (loader (run parse_fixture evs s)) !! "en" = Some bucket'
             ∧ is_Some (bucket' !! "greeting").
Proof.
  intros s evs.
  apply (cache_keys_accumulate parse_fixture evs s "en" "greeting"
           {[ "greeting" := "hi" ]}).
  - vm_compute. reflexivity.
  - exists "hi". vm_compute. reflexivity.
Defined.

(** X5 on the fixture: chunk [a] stays loaded for [de] when a hot update
    moves its resource. *)
Lemma loaded_is_permanent_witness :
  let s := run parse_fixture [CallSetLocale "de"; RequestLoad 0 "{}"]
             (boot fixture_manifest [IdStr "a"] []) in
  let evs := [CallHot {[ "a" := {[ "de" := "a.de.v2.json" ]} ]} ∅] in
  is_loaded (IdStr "a") "de" (loader (run parse_fixture evs s)) = true
  ∧ load (IdStr "a") "de" (run parse_fixture evs s)
    = (Resolved, run parse_fixture evs s).
Proof.
  intros s evs.
  apply (loaded_is_permanent parse_fixture evs s (IdStr "a") "de").
  vm_compute. reflexivity.
Defined.

(** X6 on the fixture: two loads of chunk [a] before any response. *)
Lemma load_twice_in_flight_witness :
  let s := boot fixture_manifest [IdStr "a"] [] in
  requests (load (IdStr "a") "de" (load (IdStr "a") "de" s).2).2
  = [fixture_request; fixture_request].
Proof.
  intros s.
  destruct (load_twice_in_flight (IdStr "a") "de" s) as (_ & _ & Hreqs).
  - vm_compute. reflexivity.
  - etrans; [exact Hreqs|]. vm_compute. reflexivity.
Defined.

(** X8 on the fixture: no chunk has a resource for [fr]. *)
Lemma setLocale_without_requests_witness :
  let s := boot fixture_manifest [IdStr "a"] [] in
  let s2 := then_setLocale 0 (then_loadPending 0 (setLocale "fr" s).2) in
  requests s2 = [] ∧ locale (loader s2) = Some "fr"
  ∧ messages (loader s2) = None.
Proof.
  intros s s2.
  destruct (setLocale_without_requests "fr" s)
    as (Hreqs & Hlocale & _ & _ & _ & Hmessages).
  - intros c Hc. apply list_elem_of_singleton in Hc as ->.
    vm_compute. reflexivity.
  - split_and!; [exact Hreqs|exact Hlocale|].
    etrans; [exact Hmessages|]. vm_compute. reflexivity.
Defined.

(** X9 on the fixture: a network error, then a retry. *)
Lemma load_network_error_witness :
  let s' := on_error 0 fixture_in_flight in
  promise_of parse_fixture 0 s' = Some (PromiseRejected (ErrorEvent 0))
  ∧ loader s' = loader fixture_in_flight
  ∧ ∃ r', (length (requests s') ≤ r')%nat
      ∧ requests (loadPending "de" s').2 !! r' = Some fixture_request.
Proof.
  intros s'.
  destruct (load_network_error parse_fixture 0 fixture_in_flight
              fixture_request eq_refl eq_refl)
    as (Hpromise & Hloader & _ & Hretry).
  split_and!; [exact Hpromise|exact Hloader|].
  destruct Hretry as (r' & src & Hle & Hlk & Hsrc).
  - apply list_elem_of_here.
  - vm_compute. reflexivity.
  - exists r'. split; [exact Hle|].
    assert (src = "a.de.json") as -> by (vm_compute in Hsrc; congruence).
    exact Hlk.
Defined.

(** X10 on the fixture: with [de] active, chunk [b] is pushed and loaded. *)
Lemma push_catches_up_witness :
  let s := run parse_fixture
             [CallSetLocale "de"; RequestLoad 0 "{}"; ThenLoadPending 0;
              ThenSetLocale 0]
             (boot fixture_manifest [IdStr "a"] []) in
  (push (IdStr "b") s).1 = OfRequest 1
  ∧ is_loaded (IdStr "b") "de"
      (loader (on_load parse_fixture 1 "{}" (push (IdStr "b") s).2)) = true.
Proof.
  intros s.
  assert (Hloc : locale (loader s) = Some "de") by (vm_compute; reflexivity).
  assert (Hskip : load_skips (IdStr "b") "de" (loader s) = false)
    by (vm_compute; reflexivity).
  destruct (push_catches_up parse_fixture (IdStr "b") "de" "{}" ∅ s Hloc
              ltac:(discriminate) Hskip eq_refl)
    as (Hpromise & _ & _ & Hloaded & _).
  split; [exact Hpromise|exact Hloaded].
Defined.

(** X12 on the fixture: the bodies of chunks [a] and [b] hold different
    message ids for the same locale; in either order of arrival both are in
    the bucket of [de] and both chunks are recorded. *)
Lemma responses_commute_witness :
  let s := (loadPending "de"
              (boot fixture_manifest [IdStr "a"; IdStr "b"] [])).2 in
  let s' := on_load parse_fixture_bodies 0 "a.de"
              (on_load parse_fixture_bodies 1 "b.de" s) in
  s' = on_load parse_fixture_bodies 1 "b.de"
         (on_load parse_fixture_bodies 0 "a.de" s)
  ∧ cache (loader s') !! "de"
    = Some {[ "a.title" := "Titel"; "b.title" := "Untertitel" ]}
  ∧ is_loaded (IdStr "a") "de" (loader s') = true
  ∧ is_loaded (IdStr "b") "de" (loader s') = true.
Proof.
  intros s s'. split_and!; [|vm_compute; reflexivity..].
  apply (responses_commute parse_fixture_bodies 0 1 "a.de" "b.de"
           fixture_request (mkRequest (IdStr "b") "de" "b.de.json" Sent)
           {[ "a.title" := "Titel" ]} {[ "b.title" := "Untertitel" ]} s);
    try (vm_compute; reflexivity).
  - discriminate.
  - right. apply map_disjoint_singleton_l_2.
    apply lookup_singleton_ne. discriminate.
Defined.

(** X13 on the fixture: the settled chain of a [loadPending] ignores a later
    push and a stray callback. *)
Lemma settled_chains_are_final_witness :
  let s := run parse_fixture [CallLoadPending "fr"; ThenLoadPending 0]
             (boot fixture_manifest [IdStr "a"] []) in
  chains (run parse_fixture [CallPush (IdStr "b"); ThenLoadPending 0] s) !! 0
  = Some (mkChain "fr" 1 [IdStr "a"] [] false Settled).
Proof.
  intros s.
  apply (settled_chains_are_final parse_fixture
           [CallPush (IdStr "b"); ThenLoadPending 0] s 0).
  - vm_compute. reflexivity.
  - right. split; reflexivity.
Defined.

(** X15 on a script with two occurrences: only the first is rewritten; and
    on a script without one. *)
Lemma replace_first_leftmost_witness :
  replace_first "react-scripts" "@react-app/react-scripts"
    "react-scripts build && react-scripts test"
  = "@react-app/react-scripts build && react-scripts test"
  ∧ replace_first "react-scripts" "@react-app/react-scripts" "jest" = "jest".
Proof.
  split.
  - apply (proj1 (replace_first_leftmost "react-scripts"
                    "@react-app/react-scripts"
                    "react-scripts build && react-scripts test")
             "" " build && react-scripts test").
    + reflexivity.
    + intros pre' post' _. simpl. lia.
  - apply (proj2 (replace_first_leftmost "react-scripts"
                    "@react-app/react-scripts" "jest")).
    intros pre post Heq. apply (f_equal String.length) in Heq.
    rewrite !string_app_length in Heq. simpl in Heq. lia.
Defined.

(** X17 on a [scripts] object: the test script is kept. *)
Lemma rewrite_scripts_maps_witness :
  rewrite_scripts {[ "start" := "react-scripts start"; "test" := "jest" ]}
    !! "test" = Some "jest".
Proof.
  apply (proj2 (proj2 (rewrite_scripts_maps
           {[ "start" := "react-scripts start"; "test" := "jest" ]}))).
  - vm_compute. reflexivity.
  - intros pre post Heq. apply (f_equal String.length) in Heq.
    rewrite !string_app_length in Heq. simpl in Heq. lia.
Defined.

(** X19 on the hydrated fixture, once [en] is active. *)
Lemma hot_shows_in_messages_witness :
  let s := run parse_fixture
             [CallSetLocale "en"; ThenLoadPending 0; ThenSetLocale 0]
             (boot fixture_manifest [] hydration_cached) in
  messages (hot ∅ {[ "en" := {[ "bye" := "ciao" ]} ]} (loader s))
  = Some {[ "bye" := "ciao"; "greeting" := "hi" ]}.
Proof.
  intros s.
  assert (Hloc : locale (loader s) = Some "en") by (vm_compute; reflexivity).
  etrans.
  - apply (hot_shows_in_messages ∅ {[ "en" := {[ "bye" := "ciao" ]} ]}
             (loader s) "en" Hloc).
    discriminate.
  - vm_compute. reflexivity.
Defined.

(** X11 on a cache with a greeting for [en]: a payload for [de] leaves the
    bucket of [en] alone. *)
Lemma updateCache_last_writer_wins_witness :
  let l := construct fixture_manifest [] hydration_cached in
  cache (updateCache {[ "de" := {[ "greeting" := "hallo" ]} ]} l) !! "en"
  = Some {[ "greeting" := "hi" ]}.
Proof.
  intros l.
  etrans.
  - apply (proj2 (proj2 (updateCache_last_writer_wins
             {[ "de" := {[ "greeting" := "hallo" ]} ]} l "en" "greeting"))).
    vm_compute. reflexivity.
  - vm_compute. reflexivity.
Defined.

(** X14 on the fixture: the locale set by a fulfilled [setLocale] is still
    set after a second one failed. *)
Lemma locale_comes_from_a_settled_setLocale_witness :
  let evs := [CallSetLocale "fr"; ThenLoadPending 0; ThenSetLocale 0] in
  let evs' := [CallSetLocale "de"; RequestError 0; ThenSetLocale 1] in
  is_Some (locale (loader (run parse_fixture evs'
                             (run parse_fixture evs
                                (boot fixture_manifest [IdStr "a"] []))))).
Proof.
  intros evs evs'.
  apply (proj2 (locale_comes_from_a_settled_setLocale parse_fixture
                  fixture_manifest [IdStr "a"] [] evs evs')).
  exists "fr". vm_compute. reflexivity.
Defined.
